(** * fizz: handshake transcript hash and the FizzBase event driver

    A shallow embedding of
    - [fizz/protocol/HandshakeContext-inl.h]: [HandshakeContextImpl<Hash>],
      the streaming transcript hash and the Finished computation;
    - [fizz/protocol/FizzBase.h]: the members of [FizzBase] and their
      initial values, together with the driver operations the header
      declares.

    Buffers ([folly::IOBuf], [folly::ByteRange]) are lists of bytes.  The
    hash policy [Hash] is a template parameter of the source; it is a record
    of operations and laws here, instantiated with SHA-256 and SHA-384, the
    two hash families of the TLS 1.3 cipher suites. *)

From Stdlib Require Import String Ascii ZArith List Lia Bool Permutation.
From Stdlib.Strings Require Import Byte.
Import ListNotations.

Local Open Scope Z_scope.

(** ** Bytes and buffers *)

Definition bytes := list byte.

Definition Z_of_byte (b : byte) : Z := Z.of_N (Byte.to_N b).

Definition byte_of_Z (z : Z) : byte :=
  match Byte.of_N (Z.to_N (z mod 256)) with
  | Some b => b
  | None => x00
  end.

(** Big-endian encoding of [z] on [n] bytes. *)
Fixpoint be_bytes (n : nat) (z : Z) : bytes :=
  match n with
  | O => []
  | S n' => byte_of_Z (Z.shiftr z (8 * Z.of_nat n')) :: be_bytes n' z
  end.

(** Big-endian decoding. *)
Definition be_Z (bs : bytes) : Z :=
  fold_left (fun acc b => acc * 256 + Z_of_byte b) bs 0.

Definition str (s : string) : bytes := list_byte_of_string s.

(** [folly::IOBuf::create(capacity)]: an empty buffer. *)
Definition IOBuf_create (capacity : nat) : bytes := [].

(** [IOBuf::append(n)]: the length grows by [n]; the new bytes are not
    initialised by the source, they read as zero here. *)
Definition IOBuf_append (buf : bytes) (n : nat) : bytes := buf ++ repeat x00 n.

(** Writing [data] through a [MutableByteRange] over [range]: the first
    bytes of the range are overwritten, the range keeps its length. *)
Definition write_range (range data : bytes) : bytes :=
  firstn (length range) (data ++ skipn (length data) range).

(** ** The SHA-2 family (FIPS 180-4), as a streaming engine *)

Module Sha2.

Record params := {
  wbits : Z;                 (* word size in bits *)
  K : list Z;                (* round constants, one per round *)
  IV : Z * Z * Z * Z * Z * Z * Z * Z;   (* initial chaining value *)
  blockLen : nat;            (* block size in bytes *)
  lenBytes : nat;            (* size of the length field of the padding *)
  outLen : nat;              (* digest size in bytes *)
  bigS0 : Z * Z * Z;         (* rotations of the big sigma 0 *)
  bigS1 : Z * Z * Z;
  smallS0 : Z * Z * Z;       (* two rotations and a shift *)
  smallS1 : Z * Z * Z
}.

Section Engine.
Variable p : params.

Definition wmod (x : Z) : Z := x mod 2 ^ wbits p.
Definition wadd (x y : Z) : Z := wmod (x + y).
Definition wnot (x : Z) : Z := Z.lxor x (2 ^ wbits p - 1).
Definition rotr (n x : Z) : Z :=
  wmod (Z.lor (Z.shiftr x n) (Z.shiftl x (wbits p - n))).
Definition shr (n x : Z) : Z := Z.shiftr x n.

Definition Ch (x y z : Z) : Z := Z.lxor (Z.land x y) (Z.land (wnot x) z).
Definition Maj (x y z : Z) : Z :=
  Z.lxor (Z.lxor (Z.land x y) (Z.land x z)) (Z.land y z).

Definition rot3 (c : Z * Z * Z) (x : Z) : Z :=
  let '(a, b, d) := c in Z.lxor (Z.lxor (rotr a x) (rotr b x)) (rotr d x).
Definition rot2shr (c : Z * Z * Z) (x : Z) : Z :=
  let '(a, b, d) := c in Z.lxor (Z.lxor (rotr a x) (rotr b x)) (shr d x).

Definition Sigma0 := rot3 (bigS0 p).
Definition Sigma1 := rot3 (bigS1 p).
Definition sigma0 := rot2shr (smallS0 p).
Definition sigma1 := rot2shr (smallS1 p).

(** The eight working variables a..h; also the chaining value. *)
Definition regs : Type := Z * Z * Z * Z * Z * Z * Z * Z.

Definition round (r : regs) (k w : Z) : regs :=
  let '(a, b, c, d, e, f, g, h) := r in
  let t1 := wadd (wadd (wadd (wadd h (Sigma1 e)) (Ch e f g)) k) w in
  let t2 := wadd (Sigma0 a) (Maj a b c) in
  (wadd t1 t2, a, b, c, wadd d t1, e, f, g).

(** The rounds, with the message schedule kept as a window of the
    sixteen words W[t] .. W[t+15]. *)
Fixpoint rounds (ks : list Z) (win : list Z) (r : regs) : regs :=
  match ks with
  | [] => r
  | k :: ks' =>
      let w := nth 0 win 0 in
      let wnext :=
        wadd (wadd (wadd (sigma1 (nth 14 win 0)) (nth 9 win 0))
                   (sigma0 (nth 1 win 0))) w in
      rounds ks' (tl win ++ [wnext]) (round r k w)
  end.

(** The words of a block, big-endian. *)
Fixpoint words (n : nat) (bs : bytes) : list Z :=
  match n with
  | O => []
  | S n' =>
      let wl := Z.to_nat (wbits p / 8) in
      be_Z (firstn wl bs) :: words n' (skipn wl bs)
  end.

Definition zip_add (x y : regs) : regs :=
  let '(a, b, c, d, e, f, g, h) := x in
  let '(a', b', c', d', e', f', g', h') := y in
  (wadd a a', wadd b b', wadd c c', wadd d d',
   wadd e e', wadd f f', wadd g g', wadd h h').

Definition compress (h : regs) (block : bytes) : regs :=
  zip_add h (rounds (K p) (words 16 block) h).

(** The context of a running digest: chaining value, the bytes of the
    block not yet complete, and the number of bytes absorbed. *)
Record ctx := { chain : regs; pending : bytes; total : Z }.

Definition init : ctx := {| chain := IV p; pending := []; total := 0 |}.

(** Compress while a whole block is buffered; [fuel] bounds the number of
    blocks and is the length of the buffer at the call. *)
Fixpoint absorb (fuel : nat) (h : regs) (buf : bytes) : regs * bytes :=
  match fuel with
  | O => (h, buf)
  | S fuel' =>
      if Nat.ltb (length buf) (blockLen p) then (h, buf)
      else absorb fuel' (compress h (firstn (blockLen p) buf))
                  (skipn (blockLen p) buf)
  end.

Definition update (c : ctx) (data : bytes) : ctx :=
  let buf := pending c ++ data in
  let '(h, rest) := absorb (length buf) (chain c) buf in
  {| chain := h; pending := rest; total := total c + Z.of_nat (length data) |}.

(** Padding: 0x80, zeros up to the length field, the bit length. *)
Definition padding (c : ctx) : bytes :=
  let used := (length (pending c) + 1 + lenBytes p)%nat in
  let zeros := ((blockLen p - used mod blockLen p) mod blockLen p)%nat in
  x80 :: repeat x00 zeros ++ be_bytes (lenBytes p) (8 * total c).

Definition regs_list (r : regs) : list Z :=
  let '(a, b, c, d, e, f, g, h) := r in [a; b; c; d; e; f; g; h].

Definition digest_bytes (h : regs) : bytes :=
  firstn (outLen p)
    (flat_map (be_bytes (Z.to_nat (wbits p / 8))) (regs_list h)).

(** Finalisation consumes the context: the padding is absorbed into it. *)
Definition final (c : ctx) : ctx * bytes :=
  let buf := pending c ++ padding c in
  let '(h, rest) := absorb (length buf) (chain c) buf in
  ({| chain := h; pending := rest; total := total c |}, digest_bytes h).

Definition hash (data : bytes) : bytes := snd (final (update init data)).

(** HMAC (RFC 2104) over this hash. *)
Definition xor_pad (pad : byte) (key : bytes) : bytes :=
  map (fun b => byte_of_Z (Z.lxor (Z_of_byte b) (Z_of_byte pad))) key.

Definition hmac_key (key : bytes) : bytes :=
  let k := if Nat.ltb (blockLen p) (length key) then hash key else key in
  k ++ repeat x00 (blockLen p - length k).

Definition hmac (key msg : bytes) : bytes :=
  let k := hmac_key key in
  hash (xor_pad x5c k ++ hash (xor_pad x36 k ++ msg)).

(** HKDF-Expand (RFC 5869): T(i) = HMAC(prk, T(i-1) | info | i). *)
Fixpoint hkdf_blocks (n : nat) (prk info prev : bytes) (i : Z) : bytes :=
  match n with
  | O => []
  | S n' =>
      let t := hmac prk (prev ++ info ++ [byte_of_Z i]) in
      t ++ hkdf_blocks n' prk info t (i + 1)
  end.

Definition hkdf_expand (prk info : bytes) (len : nat) : bytes :=
  firstn len (hkdf_blocks (S (len / outLen p)) prk info [] 1).

(** The HkdfLabel of RFC 8446, 7.1: the length, the label prefixed with
    "tls13 ", and the context, each with its length. *)
Definition hkdf_label (label : string) (context : bytes) (len : nat) : bytes :=
  let l := str "tls13 " ++ str label in
  be_bytes 2 (Z.of_nat len)
    ++ byte_of_Z (Z.of_nat (length l)) :: l
    ++ byte_of_Z (Z.of_nat (length context)) :: context.

(** Modelled from the spec: [KeyDerivationImpl<Hash>::expandLabel] is
    declared in fizz/crypto/KeyDerivation.h, which is not among the sources;
    it is the label-based key expansion of TLS 1.3, HKDF-Expand-Label over
    the HMAC of the hash. *)
Definition hkdf_expand_label
  (secret : bytes) (label : string) (context : bytes) (len : nat) : bytes :=
  hkdf_expand secret (hkdf_label label context len) len.

End Engine.

(** The constants of FIPS 180-4 are the leading fractional bits of the
    square roots (initial values) and cube roots (round constants) of the
    first primes. *)
Definition is_prime (n : Z) : bool :=
  forallb (fun d => negb (n mod d =? 0))
    (map Z.of_nat (seq 2 (Z.to_nat n - 2))).

Definition primes (count : nat) : list Z :=
  firstn count (filter is_prime (map Z.of_nat (seq 2 420))).

(** The integer cube root, bit by bit from bit [n - 1] down. *)
Fixpoint cube_root (n : nat) (x acc : Z) : Z :=
  match n with
  | O => acc
  | S n' =>
      let c := acc + 2 ^ Z.of_nat n' in
      cube_root n' x (if c * c * c <=? x then c else acc)
  end.

Definition frac_sqrt (bits p : Z) : Z :=
  Z.sqrt (p * 2 ^ (2 * bits)) mod 2 ^ bits.

Definition frac_cbrt (bits p : Z) : Z :=
  cube_root (Z.to_nat bits + 4) (p * 2 ^ (3 * bits)) 0 mod 2 ^ bits.

Definition regs_of_list (l : list Z) : Z * Z * Z * Z * Z * Z * Z * Z :=
  match l with
  | [a; b; c; d; e; f; g; h] => (a, b, c, d, e, f, g, h)
  | _ => (0, 0, 0, 0, 0, 0, 0, 0)
  end.

Definition K256 : list Z :=
  Eval vm_compute in map (frac_cbrt 32) (primes 64).

Definition IV256 : Z * Z * Z * Z * Z * Z * Z * Z :=
  Eval vm_compute in regs_of_list (map (frac_sqrt 32) (primes 8)).

Definition K512 : list Z :=
  Eval vm_compute in map (frac_cbrt 64) (primes 80).

Definition IV384 : Z * Z * Z * Z * Z * Z * Z * Z :=
  Eval vm_compute in regs_of_list (map (frac_sqrt 64) (skipn 8 (primes 16))).

Definition sha256 : params := {|
  wbits := 32;
  K := K256;
  IV := IV256;
  blockLen := 64;
  lenBytes := 8;
  outLen := 32;
  bigS0 := (2, 13, 22);
  bigS1 := (6, 11, 25);
  smallS0 := (7, 18, 3);
  smallS1 := (17, 19, 10)
|}.

(** SHA-384 is SHA-512 with its own initial value (from the ninth to the
    sixteenth prime) and the output cut to 48 bytes. *)
Definition sha384 : params := {|
  wbits := 64;
  K := K512;
  IV := IV384;
  blockLen := 128;
  lenBytes := 16;
  outLen := 48;
  bigS0 := (28, 34, 39);
  bigS1 := (14, 18, 41);
  smallS0 := (1, 8, 7);
  smallS1 := (19, 61, 6)
|}.

End Sha2.

(** ** The hash policy

    The template parameter [Hash] of [HandshakeContextImpl]: the digest
    length [Hash::HashLen], the digest engine behind [Hash::HashEngine()]
    as [folly::ssl::OpenSSLHash::Digest] drives it, and [Hash::hmac].
    [expandLabel] is [KeyDerivationImpl<Hash>::expandLabel]. *)

Record HashPolicy := {
  HashLen : nat;
  Digest : Type;
  (** [Digest(); hash_init(Hash::HashEngine())] *)
  hash_init : Digest;
  (** [hash_update(data)] *)
  hash_update : Digest -> bytes -> Digest;
  (** [hash_final(out)]: the digest object after the call and the bytes
      written to [out] *)
  hash_final : Digest -> Digest * bytes;
  (** [Hash::hmac(key, in, out)]: the bytes written to [out] *)
  hmac : bytes -> bytes -> bytes;
  (** [expandLabel(secret, label, hashValue, length)] *)
  expandLabel : bytes -> string -> bytes -> nat -> bytes
}.

(** What the source relies on from a hash policy: the engine is a streaming
    one, and digests and tags have the declared length. *)
Record Lawful (Hash : HashPolicy) : Prop := {
  update_nil : hash_update Hash (hash_init Hash) [] = hash_init Hash;
  update_app : forall d a b,
    hash_update Hash (hash_update Hash d a) b = hash_update Hash d (a ++ b);
  final_length : forall d, length (snd (hash_final Hash d)) = HashLen Hash;
  hmac_length : forall key msg, length (hmac Hash key msg) = HashLen Hash
}.

(** Hashing a byte string directly, in one shot. *)
Definition hash_once (Hash : HashPolicy) (data : bytes) : bytes :=
  snd (hash_final Hash (hash_update Hash (hash_init Hash) data)).

(** The hash policy of a member of the SHA-2 family. *)
Definition Sha2Policy (p : Sha2.params) : HashPolicy := {|
  HashLen := Sha2.outLen p;
  Digest := Sha2.ctx;
  hash_init := Sha2.init p;
  hash_update := Sha2.update p;
  hash_final := Sha2.final p;
  hmac := Sha2.hmac p;
  expandLabel := Sha2.hkdf_expand_label p
|}.

Definition Sha256 : HashPolicy := Sha2Policy Sha2.sha256.
Definition Sha384 : HashPolicy := Sha2Policy Sha2.sha384.

(** ** HandshakeContextImpl<Hash> *)

Definition Buf := bytes.

(** [IOBuf::coalesce()]: the contiguous bytes of the buffer. *)
Definition coalesce (b : Buf) : bytes := b.

Section HandshakeContext.
Variable Hash : HashPolicy.

Record HandshakeContextImpl := { hashState : Digest Hash }.

(** A member function: from the object to a result and the object after
    the call. *)
Definition method (A : Type) : Type :=
  HandshakeContextImpl -> A * HandshakeContextImpl.

Definition ret {A} (a : A) : method A := fun this => (a, this).
Definition bind {A B} (m : method A) (k : A -> method B) : method B :=
  fun this => let '(a, this') := m this in k a this'.

(** The constructor. *)
Definition HandshakeContextImpl_new : HandshakeContextImpl :=
  {| hashState := hash_init Hash |}.

Definition appendToTranscript (data : Buf) : method unit :=
  fun this =>
    (tt, {| hashState := hash_update Hash (hashState this) data |}).

Definition getHandshakeContext : method Buf :=
  fun this =>
    let copied := hashState this in
    let out := IOBuf_create (HashLen Hash) in
    let out := IOBuf_append out (HashLen Hash) in
    let outRange := out in
    let '(copied, written) := hash_final Hash copied in
    (write_range outRange written, this).

Definition getFinishedData (baseKey : bytes) : method Buf :=
  bind getHandshakeContext (fun context =>
    let finishedKey :=
      expandLabel Hash baseKey "finished" (IOBuf_create 0) (HashLen Hash) in
    let data := IOBuf_create (HashLen Hash) in
    let data := IOBuf_append data (HashLen Hash) in
    let outRange := data in
    ret (write_range outRange (hmac Hash (coalesce finishedKey) context))).

(** Calls on a handshake context, and what each returns. *)
Inductive call :=
| AppendToTranscript (data : Buf)
| GetHandshakeContext
| GetFinishedData (baseKey : bytes).

Definition run_call (c : call) : method (option Buf) :=
  match c with
  | AppendToTranscript data =>
      bind (appendToTranscript data) (fun _ => ret None)
  | GetHandshakeContext => bind getHandshakeContext (fun d => ret (Some d))
  | GetFinishedData k => bind (getFinishedData k) (fun t => ret (Some t))
  end.

Fixpoint run_calls (cs : list call) : method (list (option Buf)) :=
  match cs with
  | [] => ret []
  | c :: cs' =>
      bind (run_call c) (fun r =>
      bind (run_calls cs') (fun rs => ret (r :: rs)))
  end.

(** The payloads appended by a sequence of calls, in order. *)
Fixpoint appended (cs : list call) : list Buf :=
  match cs with
  | [] => []
  | AppendToTranscript data :: cs' => data :: appended cs'
  | _ :: cs' => appended cs'
  end.

(** The context after the calls [cs] on a new one. *)
Definition after (cs : list call) : HandshakeContextImpl :=
  snd (run_calls cs HandshakeContextImpl_new).

(** The Digest after appending each of [msgs] in order to a new context. *)
Definition transcript_digest (msgs : list Buf) : Buf :=
  fst (getHandshakeContext (after (map AppendToTranscript msgs))).

End HandshakeContext.

Arguments hashState {Hash}.
Arguments appendToTranscript {Hash}.
Arguments getHandshakeContext {Hash}.
Arguments getFinishedData {Hash}.
Arguments run_call {Hash}.
Arguments run_calls {Hash}.

(** The messages of the spec's scenario. *)
Definition ClientHello : Buf := str "ClientHello".
Definition ServerHello : Buf := str "ServerHello".
Definition FinishedMsg : Buf := str "Finished-msg".

(** The spec's reading of "a different grouping or order changes the
    Digest": any two distinct non-empty sequences of appends over the same
    bytes give different Digests. *)
Definition regrouping_changes_digest (Hash : HashPolicy) : Prop :=
  forall l1 l2 : list Buf,
    l1 <> [] -> l2 <> [] -> l1 <> l2 ->
    Permutation (concat l1) (concat l2) ->
    transcript_digest Hash l1 <> transcript_digest Hash l2.

(** The calls that only read the context. *)
Definition is_read (c : call) : bool :=
  match c with
  | AppendToTranscript _ => false
  | GetHandshakeContext | GetFinishedData _ => true
  end.

(** A payload of at least one byte. *)
Definition nonempty (data : Buf) : bool := negb (Nat.eqb (length data) 0).

(** ** FizzBase

    [FizzBase.h] declares the members of the driver, their initial values
    and its operations; the bodies are in [FizzBase-inl.h], which is not
    among the sources. *)

(** [PendingEvent]: the variant over [AppWrite], [EarlyAppWrite],
    [AppClose] and [WriteNewSessionTicket], each with its payload. *)
Inductive PendingEvent :=
| EvAppWrite (data : bytes)
| EvEarlyAppWrite (data : bytes)
| EvAppClose
| EvWriteNewSessionTicket (appToken : bytes).

(** The public operations of the header that change the driver. *)
Inductive Call :=
| WriteNewSessionTicket (appToken : bytes)
| AppWrite (data : bytes)
| EarlyAppWrite (data : bytes)
| AppClose
| WaitForData
| NewTransportData
| MoveToErrorState (ex : string).

(** A unit of work for the state machine: the transport read buffer, or a
    queued event. *)
Inductive UnitOfWork :=
| SocketData
| Event (e : PendingEvent).

Definition event_of_call (c : Call) : option PendingEvent :=
  match c with
  | WriteNewSessionTicket t => Some (EvWriteNewSessionTicket t)
  | AppWrite d => Some (EvAppWrite d)
  | EarlyAppWrite d => Some (EvEarlyAppWrite d)
  | AppClose => Some EvAppClose
  | WaitForData | NewTransportData | MoveToErrorState _ => None
  end.

Section Driver.
(** What the reference members [state_] and [transportReadBuf_] point to,
    and whatever else the visitor acts on; owned by the caller. *)
Variable World : Type.
Variable Action : Type.

(** [StateMachine]: from the state and a unit of work to the actions
    produced and whether the unit completes a step, or a failure. *)
Variable processUnit :
  World -> UnitOfWork -> option (World * list Action * bool).

(** [ActionMoveVisitor]: what handling an action does to the caller's
    world, and the calls it makes back on the driver while it runs. *)
Variable visit : Action -> World -> World * list Call.

(** The error callback of a pending event. *)
Variable failEvent : string -> PendingEvent -> World -> World.

(** Whether queued events go ahead of transport bytes within a pass, or
    behind them. *)
Variable eventsFirst : bool.

(** What can be observed of a run, oldest first. *)
Inductive Obs :=
| Accepted (c : Call)
| Processed (u : UnitOfWork) (produced : option (list Action))
| Dispatched (a : Action)
| Failed (e : PendingEvent)
| EnterDrain
| LeaveDrain.

(** The members of [FizzBase] (FizzBase.h, lines 101-117); [env] is what
    the reference members point to, [aggregate] the actions produced and
    not yet dispatched, [log] a ghost record of the run. *)
Record FizzBase := {
  pendingEvents_ : list PendingEvent;
  waitForData_ : bool;
  actionGuard_ : bool;
  inProcessPendingEvents_ : bool;
  inErrorState_ : bool;
  env : World;
  aggregate : list Action;
  log : list Obs
}.

(** The constructor: the member initialisers of the header. *)
Definition FizzBase_new (w : World) : FizzBase := {|
  pendingEvents_ := [];
  waitForData_ := true;
  actionGuard_ := false;
  inProcessPendingEvents_ := false;
  inErrorState_ := false;
  env := w;
  aggregate := [];
  log := []
|}.

Definition set_pendingEvents (q : list PendingEvent) (s : FizzBase) :=
  {| pendingEvents_ := q; waitForData_ := waitForData_ s;
     actionGuard_ := actionGuard_ s;
     inProcessPendingEvents_ := inProcessPendingEvents_ s;
     inErrorState_ := inErrorState_ s; env := env s;
     aggregate := aggregate s; log := log s |}.

Definition set_waitForData (b : bool) (s : FizzBase) :=
  {| pendingEvents_ := pendingEvents_ s; waitForData_ := b;
     actionGuard_ := actionGuard_ s;
     inProcessPendingEvents_ := inProcessPendingEvents_ s;
     inErrorState_ := inErrorState_ s; env := env s;
     aggregate := aggregate s; log := log s |}.

Definition set_actionGuard (b : bool) (s : FizzBase) :=
  {| pendingEvents_ := pendingEvents_ s; waitForData_ := waitForData_ s;
     actionGuard_ := b;
     inProcessPendingEvents_ := inProcessPendingEvents_ s;
     inErrorState_ := inErrorState_ s; env := env s;
     aggregate := aggregate s; log := log s |}.

Definition set_inProcessPendingEvents (b : bool) (s : FizzBase) :=
  {| pendingEvents_ := pendingEvents_ s; waitForData_ := waitForData_ s;
     actionGuard_ := actionGuard_ s;
     inProcessPendingEvents_ := b;
     inErrorState_ := inErrorState_ s; env := env s;
     aggregate := aggregate s; log := log s |}.

Definition set_inErrorState (b : bool) (s : FizzBase) :=
  {| pendingEvents_ := pendingEvents_ s; waitForData_ := waitForData_ s;
     actionGuard_ := actionGuard_ s;
     inProcessPendingEvents_ := inProcessPendingEvents_ s;
     inErrorState_ := b; env := env s;
     aggregate := aggregate s; log := log s |}.

Definition set_env (w : World) (s : FizzBase) :=
  {| pendingEvents_ := pendingEvents_ s; waitForData_ := waitForData_ s;
     actionGuard_ := actionGuard_ s;
     inProcessPendingEvents_ := inProcessPendingEvents_ s;
     inErrorState_ := inErrorState_ s; env := w;
     aggregate := aggregate s; log := log s |}.

Definition set_aggregate (a : list Action) (s : FizzBase) :=
  {| pendingEvents_ := pendingEvents_ s; waitForData_ := waitForData_ s;
     actionGuard_ := actionGuard_ s;
     inProcessPendingEvents_ := inProcessPendingEvents_ s;
     inErrorState_ := inErrorState_ s; env := env s;
     aggregate := a; log := log s |}.

Definition record (o : Obs) (s : FizzBase) :=
  {| pendingEvents_ := pendingEvents_ s; waitForData_ := waitForData_ s;
     actionGuard_ := actionGuard_ s;
     inProcessPendingEvents_ := inProcessPendingEvents_ s;
     inErrorState_ := inErrorState_ s; env := env s;
     aggregate := aggregate s; log := log s ++ [o] |}.

(** [inErrorState() const] and [actionProcessing() const]. *)
Definition inErrorState (s : FizzBase) : bool := inErrorState_ s.
Definition actionProcessing (s : FizzBase) : bool := actionGuard_ s.

Definition enqueue (e : PendingEvent) (s : FizzBase) : FizzBase :=
  set_pendingEvents (pendingEvents_ s ++ [e]) s.

(** Modelled from the spec: the body of [moveToErrorState] is in
    FizzBase-inl.h.  If not already in error state, it sets the flag and
    fails every queued event through the error path. *)
Definition moveToErrorState (ex : string) (s : FizzBase) : FizzBase :=
  if inErrorState_ s then s
  else
    fold_left
      (fun s e => record (Failed e) (set_env (failEvent ex e (env s)) s))
      (pendingEvents_ s)
      (set_pendingEvents [] (set_inErrorState true s)).

(** Modelled from the spec: the choice of the next unit of work in the
    drain loop of FizzBase-inl.h: the next queued event, or the transport
    bytes if the driver is not suspended. *)
Definition nextEvent (s : FizzBase) : option (UnitOfWork * FizzBase) :=
  match pendingEvents_ s with
  | e :: q => Some (Event e, set_pendingEvents q s)
  | [] => None
  end.

(** Modelled from the spec: the transport bytes are a unit of work unless
    the driver is suspended ([waitForData_]). *)
Definition nextSocketData (s : FizzBase) : option (UnitOfWork * FizzBase) :=
  if waitForData_ s then None else Some (SocketData, s).

(** Modelled from the spec: which of the two goes first within a pass.
    Section 4.1 of the spec puts queued events ahead of transport bytes
    ([eventsFirst = true]); its design notes leave the priority open. *)
Definition nextUnit (s : FizzBase) : option (UnitOfWork * FizzBase) :=
  if eventsFirst then
    match nextEvent s with Some x => Some x | None => nextSocketData s end
  else
    match nextSocketData s with Some x => Some x | None => nextEvent s end.

(** Modelled from the spec: [processPendingEvents] of FizzBase-inl.h, the
    attempt to drain, over the loop it guards.  A call made while the
    loop runs returns at once. *)
Definition processPendingEvents_over
  (loop : FizzBase -> FizzBase) (s : FizzBase) : FizzBase :=
  if inProcessPendingEvents_ s then s
  else
    let s := record EnterDrain (set_inProcessPendingEvents true s) in
    let s := loop s in
    record LeaveDrain (set_inProcessPendingEvents false s).

(** Modelled from the spec: the bodies of the public operations are in
    FizzBase-inl.h.  A submit enqueues its event and attempts to drain;
    [waitForData] suspends; [newTransportData] resumes and attempts to
    drain. *)
Definition invoke_over
  (loop : FizzBase -> FizzBase) (c : Call) (s : FizzBase) : FizzBase :=
  let s := record (Accepted c) s in
  match c with
  | WriteNewSessionTicket t =>
      processPendingEvents_over loop (enqueue (EvWriteNewSessionTicket t) s)
  | AppWrite d => processPendingEvents_over loop (enqueue (EvAppWrite d) s)
  | EarlyAppWrite d =>
      processPendingEvents_over loop (enqueue (EvEarlyAppWrite d) s)
  | AppClose => processPendingEvents_over loop (enqueue EvAppClose s)
  | WaitForData => set_waitForData true s
  | NewTransportData =>
      processPendingEvents_over loop (set_waitForData false s)
  | MoveToErrorState ex => moveToErrorState ex s
  end.

(** Modelled from the spec: the dispatch of the aggregate in
    FizzBase-inl.h, to the visitor in the order produced; the calls a
    handler makes on the driver run before the next action. *)
Definition dispatch_over
  (loop : FizzBase -> FizzBase) (acts : list Action) (s : FizzBase)
  : FizzBase :=
  fold_left
    (fun s a =>
       let '(w, calls) := visit a (env s) in
       fold_left (fun s c => invoke_over loop c s) calls
         (record (Dispatched a) (set_env w s)))
    acts s.

(** Modelled from the spec: the drain loop of FizzBase-inl.h.  While not
    in error state: take the next unit of work, take the guard, hand the
    unit to the state machine; on success add the actions to the
    aggregate and, if the unit completes a step, dispatch the aggregate;
    on failure move to the error state and stop.  With nothing to do the
    guard is released.  [fuel] bounds the number of iterations. *)
Fixpoint drainLoop (fuel : nat) (s : FizzBase) : FizzBase :=
  match fuel with
  | O => s
  | S fuel' =>
      if inErrorState_ s then s
      else
        match nextUnit s with
        | None => set_actionGuard false s
        | Some (u, s) =>
            let s := set_actionGuard true s in
            match processUnit (env s) u with
            | None =>
                moveToErrorState "state machine failure"
                  (record (Processed u None) s)
            | Some (w, acts, completes) =>
                let s := record (Processed u (Some acts)) (set_env w s) in
                let s := set_aggregate (aggregate s ++ acts) s in
                let s :=
                  if completes
                  then dispatch_over (drainLoop fuel') (aggregate s)
                         (set_aggregate [] s)
                  else s in
                drainLoop fuel' s
            end
        end
  end.

(** The operations over the drain loop with [fuel] iterations. *)
Definition processPendingEvents (fuel : nat) : FizzBase -> FizzBase :=
  processPendingEvents_over (drainLoop fuel).

(** A call on the driver. *)
Definition invoke (fuel : nat) : Call -> FizzBase -> FizzBase :=
  invoke_over (drainLoop fuel).

(** A sequence of calls from the caller's event loop. *)
Definition run (fuel : nat) (cs : list Call) (s : FizzBase) : FizzBase :=
  fold_left (fun s c => invoke fuel c s) cs s.

(** *** Reading the log *)

(** The events submitted, in the order of the calls. *)
Definition accepted_events (l : list Obs) : list PendingEvent :=
  flat_map (fun o =>
    match o with
    | Accepted c =>
        match event_of_call c with Some e => [e] | None => [] end
    | _ => []
    end) l.

(** The events that left the queue, to the state machine or through the
    error path, in order. *)
Definition handled_events (l : list Obs) : list PendingEvent :=
  flat_map (fun o =>
    match o with
    | Processed (Event e) _ => [e]
    | Failed e => [e]
    | _ => []
    end) l.

(** The units of work handed to the state machine, in order. *)
Definition processed_units (l : list Obs) : list UnitOfWork :=
  flat_map (fun o =>
    match o with Processed u _ => [u] | _ => [] end) l.

(** The actions the state machine produced, and those dispatched. *)
Definition produced_actions (l : list Obs) : list Action :=
  flat_map (fun o =>
    match o with Processed _ (Some acts) => acts | _ => [] end) l.

Definition dispatched_actions (l : list Obs) : list Action :=
  flat_map (fun o =>
    match o with Dispatched a => [a] | _ => [] end) l.

(** The inputs accepted, as units of work, in the order of the calls. *)
Definition input_of_call (c : Call) : option UnitOfWork :=
  match c with
  | NewTransportData => Some SocketData
  | _ => option_map Event (event_of_call c)
  end.

Definition accepted_inputs (l : list Obs) : list UnitOfWork :=
  flat_map (fun o =>
    match o with
    | Accepted c => match input_of_call c with Some u => [u] | None => [] end
    | _ => []
    end) l.

(** The claim that units of work reach the state machine, and so their
    actions the handler, in the order in which the inputs were accepted. *)
Definition in_acceptance_order (l : list Obs) : Prop :=
  exists rest, accepted_inputs l = processed_units l ++ rest.

(** Whether a drain pass is active at the end of a log: [Some true] inside
    a pass, [Some false] outside, [None] once a pass was entered while one
    was active, left while none was, or a unit was handed to the state
    machine outside of a pass. *)
Definition pass_step (st : option bool) (o : Obs) : option bool :=
  match o with
  | EnterDrain =>
      match st with Some false => Some true | _ => None end
  | LeaveDrain =>
      match st with Some true => Some false | _ => None end
  | Processed _ _ =>
      match st with Some true => Some true | _ => None end
  | _ => st
  end.

Definition pass_state (l : list Obs) : option bool :=
  fold_left pass_step l (Some false).

(** What a call does before any attempt to drain; it is all a call does
    while a drain pass is running. *)
Definition reentrant (c : Call) (s : FizzBase) : FizzBase :=
  let s := record (Accepted c) s in
  match c with
  | MoveToErrorState ex => moveToErrorState ex s
  | WaitForData => set_waitForData true s
  | NewTransportData => set_waitForData false s
  | _ =>
      match event_of_call c with
      | Some e => enqueue e s
      | None => s
      end
  end.

Definition attempts_drain (c : Call) : bool :=
  match c with
  | WaitForData | MoveToErrorState _ => false
  | _ => true
  end.

(** No transport bytes reach the state machine before the first
    [newTransportData]. *)
Fixpoint suspended_until_resumed (l : list Obs) : Prop :=
  match l with
  | [] => True
  | Accepted NewTransportData :: _ => True
  | Processed SocketData _ :: _ => False
  | _ :: l' => suspended_until_resumed l'
  end.

(** *** Invariants of the driver *)

(** The observations a call adds while a drain pass runs: the call, and the
    failure of each queued event if the call is the first move to the error
    state. *)
Definition reentrant_obs (c : Call) (s : FizzBase) : list Obs :=
  Accepted c ::
  match c with
  | MoveToErrorState _ =>
      if inErrorState_ s then [] else map Failed (pendingEvents_ s)
  | _ => []
  end.

(** An invariant [I] at a point inside a drain pass, and outside of one. *)
Definition draining (I : FizzBase -> Prop) (s : FizzBase) : Prop :=
  inProcessPendingEvents_ s = true /\ I s.

Definition idle (I : FizzBase -> Prop) (s : FizzBase) : Prop :=
  inProcessPendingEvents_ s = false /\ I s.

(** Events leave the queue in the order accepted. *)
Definition fifo (s : FizzBase) : Prop :=
  handled_events (log s) ++ pendingEvents_ s = accepted_events (log s).

(** The log is in order, and the flag says whether a pass is active. *)
Definition in_pass (s : FizzBase) : Prop :=
  pass_state (log s) = Some (inProcessPendingEvents_ s).

(** [newTransportData] was called; no transport bytes were processed
    before it was, and the driver is suspended if it never was. *)
Definition resumed (l : list Obs) : Prop :=
  In (Accepted NewTransportData) l.

Definition suspended (s : FizzBase) : Prop :=
  suspended_until_resumed (log s)
  /\ (waitForData_ s = false -> resumed (log s)).

(** The actions dispatched, then those waiting in the aggregate, are the
    actions produced, in order. *)
Definition in_order (s : FizzBase) : Prop :=
  dispatched_actions (log s) ++ aggregate s = produced_actions (log s).

(** The aggregate and the actions of the log are as given. *)
Definition same_actions (A D P : list Action) (s : FizzBase) : Prop :=
  aggregate s = A
  /\ dispatched_actions (log s) = D
  /\ produced_actions (log s) = P.

(** In the error state a call is recorded, and its event, if any, queued;
    nothing else happens. *)
Definition stays_failed (evs : list PendingEvent) (s s' : FizzBase) : Prop :=
  inErrorState_ s' = true
  /\ processed_units (log s') = processed_units (log s)
  /\ pendingEvents_ s' = pendingEvents_ s ++ evs.

End Driver.

Arguments Accepted {Action}.
Arguments Processed {Action}.
Arguments Dispatched {Action}.
Arguments Failed {Action}.
Arguments EnterDrain {Action}.
Arguments LeaveDrain {Action}.
Arguments pendingEvents_ {World Action}.
Arguments waitForData_ {World Action}.
Arguments actionGuard_ {World Action}.
Arguments inProcessPendingEvents_ {World Action}.
Arguments inErrorState_ {World Action}.
Arguments env {World Action}.
Arguments aggregate {World Action}.
Arguments log {World Action}.
Arguments FizzBase_new {World} Action.
Arguments inErrorState {World Action}.
Arguments actionProcessing {World Action}.
Arguments set_pendingEvents {World Action}.
Arguments set_waitForData {World Action}.
Arguments set_actionGuard {World Action}.
Arguments set_inProcessPendingEvents {World Action}.
Arguments set_inErrorState {World Action}.
Arguments set_env {World Action}.
Arguments set_aggregate {World Action}.
Arguments record {World Action}.
Arguments enqueue {World Action}.
Arguments moveToErrorState {World Action}.
Arguments nextEvent {World Action}.
Arguments nextSocketData {World Action}.
Arguments nextUnit {World Action}.
Arguments processPendingEvents_over {World Action}.
Arguments invoke_over {World Action}.
Arguments dispatch_over {World Action}.
Arguments drainLoop {World Action}.
Arguments processPendingEvents {World Action}.
Arguments invoke {World Action}.
Arguments run {World Action}.
Arguments accepted_events {Action}.
Arguments handled_events {Action}.
Arguments processed_units {Action}.
Arguments produced_actions {Action}.
Arguments dispatched_actions {Action}.
Arguments accepted_inputs {Action}.
Arguments in_acceptance_order {Action}.
Arguments pass_step {Action}.
Arguments pass_state {Action}.
Arguments suspended_until_resumed {Action}.
Arguments reentrant {World Action}.
Arguments reentrant_obs {World Action}.
Arguments draining {World Action}.
Arguments idle {World Action}.
Arguments fifo {World Action}.
Arguments in_pass {World Action}.
Arguments resumed {Action}.
Arguments suspended {World Action}.
Arguments in_order {World Action}.
Arguments same_actions {World Action}.
Arguments stays_failed {World Action}.

(** The events submitted by a sequence of calls. *)
Definition submitted (cs : list Call) : list PendingEvent :=
  flat_map (fun c =>
    match event_of_call c with Some e => [e] | None => [] end) cs.

(** *** A small instance, for running the driver

    The state machine answers every unit of work with one action, naming
    the unit, and completes the step.  The visitor, on the action of a
    close, writes "A", announces transport data and writes "B"; on the
    action of transport data it suspends the driver again. *)
Definition echoMachine (w : unit) (u : UnitOfWork)
  : option (unit * list UnitOfWork * bool) :=
  Some (w, [u], true).

Definition burstVisitor (a : UnitOfWork) (w : unit) : unit * list Call :=
  match a with
  | Event EvAppClose =>
      (w, [AppWrite (str "A"); NewTransportData; AppWrite (str "B")])
  | SocketData => (w, [WaitForData])
  | _ => (w, [])
  end.

Definition ignoreFailure (ex : string) (e : PendingEvent) (w : unit) : unit :=
  w.

Definition burst_run (eventsFirst : bool) (fuel : nat) (cs : list Call)
  : FizzBase unit UnitOfWork :=
  run echoMachine burstVisitor ignoreFailure eventsFirst fuel cs
    (FizzBase_new UnitOfWork tt).

(** *** Reading the log for the transport gate *)

Section TransportGate.
Variable Action : Type.

(** Whether transport bytes may be processed at the end of a log:
    [Some true] after a [newTransportData] with no [waitForData] since,
    [Some false] while suspended, [None] once transport bytes were handed
    to the state machine while suspended. *)
Definition gate_step (st : option bool) (o : Obs Action) : option bool :=
  match o with
  | Accepted NewTransportData =>
      match st with Some _ => Some true | None => None end
  | Accepted WaitForData =>
      match st with Some _ => Some false | None => None end
  | Processed SocketData _ =>
      match st with Some true => Some true | _ => None end
  | _ => st
  end.

Definition gate_state (l : list (Obs Action)) : option bool :=
  fold_left gate_step l (Some false).

End TransportGate.

Arguments gate_step {Action}.
Arguments gate_state {Action}.

(** The log tells whether the driver is suspended. *)
Definition gated {World Action : Type} (s : FizzBase World Action) : Prop :=
  gate_state (log s) = Some (negb (waitForData_ s)).

(** The log of [s] continues [l0]. *)
Definition extends {World Action : Type}
  (l0 : list (Obs Action)) (s : FizzBase World Action) : Prop :=
  exists l, log s = l0 ++ l.

(** The units of work in the log of [s] are [us]. *)
Definition processed_are {World Action : Type}
  (us : list UnitOfWork) (s : FizzBase World Action) : Prop :=
  processed_units (log s) = us.

(** A visitor that moves the driver to the error state on every action. *)
Definition abortingVisitor (a : UnitOfWork) (w : unit) : unit * list Call :=
  (w, [MoveToErrorState "abort"]).

(** * Properties *)

(** ** Buffers *)

Lemma be_bytes_length (n : nat) (z : Z) : length (be_bytes n z) = n.
Proof. induction n as [|n IH]; simpl; [reflexivity | now rewrite IH]. Qed.

Lemma IOBuf_append_length (buf : bytes) (n : nat) :
  length (IOBuf_append buf n) = (length buf + n)%nat.
Proof. unfold IOBuf_append. now rewrite length_app, repeat_length. Qed.

Lemma write_range_length (range data : bytes) :
  length (write_range range data) = length range.
Proof.
  unfold write_range.
  rewrite length_firstn, length_app, length_skipn. lia.
Qed.

(** Data that fills the range exactly replaces it. *)
Lemma write_range_exact (range data : bytes) :
  length data = length range -> write_range range data = data.
Proof.
  intros Hlen. unfold write_range.
  rewrite Hlen, skipn_all, app_nil_r, <- Hlen.
  apply firstn_all.
Qed.

(** ** The SHA-2 engine is a lawful hash policy *)

Module Sha2Facts.
Import Sha2.

Section Laws.
Variable p : params.
Hypothesis block_pos : (0 < blockLen p)%nat.
Hypothesis out_fits : (outLen p <= 8 * Z.to_nat (wbits p / 8))%nat.

(** More fuel than the buffer is long changes nothing. *)
Lemma absorb_fuel (n m : nat) : forall h buf,
  (length buf <= n)%nat -> (length buf <= m)%nat ->
  absorb p n h buf = absorb p m h buf.
Proof.
  revert m. induction n as [|n IH]; intros m h buf Hn Hm.
  - destruct buf; [|simpl in Hn; lia].
    destruct m; simpl; [reflexivity|].
    destruct (Nat.ltb_spec 0 (blockLen p)); [reflexivity | lia].
  - destruct m as [|m].
    + destruct buf; [|simpl in Hm; lia]. simpl.
      destruct (Nat.ltb_spec 0 (blockLen p)); [reflexivity | lia].
    + simpl. destruct (Nat.ltb_spec (length buf) (blockLen p)) as [|Hge];
        [reflexivity|].
      apply IH; rewrite length_skipn; lia.
Qed.

Lemma absorb_short (n : nat) (h : regs) (buf : bytes) :
  (length buf < blockLen p)%nat -> absorb p n h buf = (h, buf).
Proof.
  intros Hlt. destruct n; simpl; [reflexivity|].
  destruct (Nat.ltb_spec (length buf) (blockLen p)); [reflexivity | lia].
Qed.

(** Absorbing [x ++ b] is absorbing [x], then what is left with [b]. *)
Lemma absorb_app (n : nat) : forall x h b,
  (length x <= n)%nat ->
  absorb p (length (x ++ b)) h (x ++ b) =
  let '(h', r) := absorb p (length x) h x in
  absorb p (length (r ++ b)) h' (r ++ b).
Proof.
  induction n as [|n IH]; intros x h b Hn.
  - destruct x; [|simpl in Hn; lia]. reflexivity.
  - destruct (Nat.ltb_spec (length x) (blockLen p)) as [Hlt|Hge].
    + now rewrite (absorb_short (length x) h x Hlt).
    + assert (Hx : exists k, length x = S k)
        by (exists (pred (length x)); lia).
      destruct Hx as [k Hk].
      assert (Hxb : length (x ++ b) = S (k + length b))
        by (rewrite length_app; lia).
      rewrite Hxb, Hk. simpl.
      destruct (Nat.ltb_spec (length (x ++ b)) (blockLen p));
        [rewrite length_app in *; lia|].
      destruct (Nat.ltb_spec (length x) (blockLen p)); [lia|].
      rewrite firstn_app, skipn_app.
      replace (blockLen p - length x)%nat with 0%nat by lia.
      rewrite firstn_O, skipn_O, app_nil_r.
      set (h1 := compress p h (firstn (blockLen p) x)).
      set (x1 := skipn (blockLen p) x).
      assert (Hx1 : (length x1 < length x)%nat)
        by (unfold x1; rewrite length_skipn; lia).
      rewrite (absorb_fuel (k + length b) (length (x1 ++ b)) h1 (x1 ++ b))
        by (rewrite length_app; lia).
      rewrite (absorb_fuel k (length x1) h1 x1) by lia.
      apply IH. lia.
Qed.

Lemma update_update (c : ctx) (a b : bytes) :
  update p (update p c a) b = update p c (a ++ b).
Proof.
  unfold update at 2 3.
  rewrite (app_assoc (pending c) a b).
  rewrite (absorb_app (length (pending c ++ a)) (pending c ++ a)
             (chain c) b (le_n _)).
  destruct (absorb p (length (pending c ++ a)) (chain c) (pending c ++ a))
    as [h1 r1].
  unfold update. simpl.
  destruct (absorb p (length (r1 ++ b)) h1 (r1 ++ b)) as [h2 r2].
  f_equal. rewrite length_app. lia.
Qed.

Lemma update_init_nil : update p (init p) [] = init p.
Proof. reflexivity. Qed.

Lemma digest_bytes_length (h : regs) :
  length (digest_bytes p h) = outLen p.
Proof.
  unfold digest_bytes.
  destruct h as [[[[[[[a b] c] d] e] f] g] h]. simpl.
  rewrite length_firstn, !length_app, !be_bytes_length. simpl. lia.
Qed.

Lemma final_digest_length (c : ctx) :
  length (snd (final p c)) = outLen p.
Proof.
  unfold final.
  destruct (absorb p _ (chain c) _) as [h r]. simpl.
  apply digest_bytes_length.
Qed.

Lemma hash_length (data : bytes) : length (hash p data) = outLen p.
Proof. apply final_digest_length. Qed.

Lemma Sha2Policy_lawful : Lawful (Sha2Policy p).
Proof.
  split; simpl.
  - apply update_init_nil.
  - apply update_update.
  - apply final_digest_length.
  - intros key msg. apply hash_length.
Qed.
End Laws.

End Sha2Facts.

Lemma Sha256_lawful : Lawful Sha256.
Proof. apply Sha2Facts.Sha2Policy_lawful; simpl; lia. Qed.

Lemma Sha384_lawful : Lawful Sha384.
Proof. apply Sha2Facts.Sha2Policy_lawful; simpl; lia. Qed.

(** ** The handshake transcript *)

Section TranscriptFacts.
Variable Hash : HashPolicy.

Lemma getHandshakeContext_state (hc : HandshakeContextImpl Hash) :
  snd (getHandshakeContext hc) = hc.
Proof.
  unfold getHandshakeContext.
  now destruct (hash_final Hash (hashState hc)).
Qed.

Lemma getHandshakeContext_length (hc : HandshakeContextImpl Hash) :
  length (fst (getHandshakeContext hc)) = HashLen Hash.
Proof.
  unfold getHandshakeContext.
  destruct (hash_final Hash (hashState hc)) as [c written]. simpl.
  now rewrite write_range_length, IOBuf_append_length.
Qed.

Lemma getFinishedData_unfold (k : bytes) (hc : HandshakeContextImpl Hash) :
  getFinishedData k hc =
  (write_range
     (IOBuf_append (IOBuf_create (HashLen Hash)) (HashLen Hash))
     (hmac Hash
        (coalesce (expandLabel Hash k "finished" (IOBuf_create 0)
                     (HashLen Hash)))
        (fst (getHandshakeContext hc))),
   hc).
Proof.
  unfold getFinishedData, bind, ret.
  pose proof (getHandshakeContext_state hc) as Hs.
  destruct (getHandshakeContext hc) as [d hc']. simpl in *. now subst.
Qed.

(** A call changes the digest state only by the bytes it appends. *)
Lemma run_calls_state (cs : list call) : forall hc : HandshakeContextImpl Hash,
  hashState (snd (run_calls cs hc)) =
  fold_left (hash_update Hash) (appended cs) (hashState hc).
Proof.
  induction cs as [|c cs IH]; intros hc; [reflexivity|].
  assert (Hstep : forall r hc',
    run_call c hc = (r, hc') ->
    hashState (snd (run_calls (c :: cs) hc)) = hashState (snd (run_calls cs hc'))).
  { intros r hc' Hc. simpl. unfold bind at 1. rewrite Hc.
    unfold bind, ret. now destruct (run_calls cs hc'). }
  destruct c as [data| |k]; simpl appended.
  - erewrite Hstep by reflexivity. now rewrite IH.
  - erewrite Hstep.
    2:{ unfold run_call, bind, ret.
        rewrite (surjective_pairing (getHandshakeContext hc)).
        rewrite getHandshakeContext_state. reflexivity. }
    apply IH.
  - erewrite Hstep.
    2:{ unfold run_call, bind at 1, ret.
        rewrite getFinishedData_unfold. reflexivity. }
    apply IH.
Qed.

Lemma appended_map (msgs : list Buf) :
  appended (map AppendToTranscript msgs) = msgs.
Proof. induction msgs as [|m msgs IH]; simpl; congruence. Qed.

Lemma after_state (cs : list call) :
  hashState (after Hash cs) =
  fold_left (hash_update Hash) (appended cs) (hash_init Hash).
Proof. unfold after. now rewrite run_calls_state. Qed.

Section WithLaws.
Hypothesis laws : Lawful Hash.

Lemma fold_update_concat (msgs : list Buf) : forall d a,
  fold_left (hash_update Hash) msgs (hash_update Hash d a) =
  hash_update Hash d (a ++ concat msgs).
Proof.
  induction msgs as [|m msgs IH]; intros d a; simpl.
  - now rewrite app_nil_r.
  - rewrite (update_app Hash laws), IH. now rewrite app_assoc.
Qed.

Lemma fold_update_init (msgs : list Buf) :
  fold_left (hash_update Hash) msgs (hash_init Hash) =
  hash_update Hash (hash_init Hash) (concat msgs).
Proof.
  rewrite <- (update_nil Hash laws) at 1.
  now rewrite fold_update_concat.
Qed.

Lemma getHandshakeContext_digest (hc : HandshakeContextImpl Hash) :
  fst (getHandshakeContext hc) = snd (hash_final Hash (hashState hc)).
Proof.
  unfold getHandshakeContext.
  pose proof (final_length Hash laws (hashState hc)) as Hlen.
  destruct (hash_final Hash (hashState hc)) as [c written].
  simpl in *. apply write_range_exact.
  now rewrite IOBuf_append_length.
Qed.

Lemma transcript_digest_concat (msgs : list Buf) :
  transcript_digest Hash msgs = hash_once Hash (concat msgs).
Proof.
  unfold transcript_digest, hash_once.
  rewrite getHandshakeContext_digest, after_state, appended_map.
  now rewrite fold_update_init.
Qed.
End WithLaws.

End TranscriptFacts.

(** C1: appending byte strings in order and reading the Digest gives the
    hash of their concatenation, for every sequence; appending "ClientHello"
    then "ServerHello" gives H1, the hash of the two concatenated, appending
    "Finished-msg" as well gives H2, the hash of the three concatenated, and
    H1 differs from H2 under SHA-256 and under SHA-384. *)
Theorem transcript_is_hash_of_concatenation :
  (forall Hash : HashPolicy, Lawful Hash ->
     (forall msgs : list Buf,
        transcript_digest Hash msgs = hash_once Hash (concat msgs))
     /\ transcript_digest Hash [ClientHello; ServerHello]
        = hash_once Hash (ClientHello ++ ServerHello)
     /\ transcript_digest Hash [ClientHello; ServerHello; FinishedMsg]
        = hash_once Hash (ClientHello ++ ServerHello ++ FinishedMsg))
  /\ transcript_digest Sha256 [ClientHello; ServerHello]
     <> transcript_digest Sha256 [ClientHello; ServerHello; FinishedMsg]
  /\ transcript_digest Sha384 [ClientHello; ServerHello]
     <> transcript_digest Sha384 [ClientHello; ServerHello; FinishedMsg].
Proof.
  split; [|split].
  - intros Hash laws. repeat split.
    + apply transcript_digest_concat, laws.
    + rewrite transcript_digest_concat by exact laws. reflexivity.
    + rewrite transcript_digest_concat by exact laws. reflexivity.
  - intros H. vm_compute in H. discriminate H.
  - intros H. vm_compute in H. discriminate H.
Qed.

Lemma transcript_is_hash_of_concatenation_witness :
  transcript_digest Sha256 [ClientHello; ServerHello]
  = hash_once Sha256 (str "ClientHelloServerHello")
  /\ transcript_digest Sha256 [ClientHello; ServerHello; FinishedMsg]
     = hash_once Sha256 (str "ClientHelloServerHelloFinished-msg").
Proof.
  destruct (proj1 transcript_is_hash_of_concatenation Sha256 Sha256_lawful)
    as [_ [H1 H2]].
  split; [exact H1 | exact H2].
Defined.

(** C2: [getFinishedData(baseKey)] returns the HMAC, under the hash policy,
    of the Digest that [getHandshakeContext] returns at that point, keyed
    with the finished key: the expansion of [baseKey] with label
    "finished", empty context and the digest length. *)
Theorem getFinishedData_is_hmac_of_digest
  (Hash : HashPolicy) (laws : Lawful Hash)
  (baseKey : bytes) (hc : HandshakeContextImpl Hash) :
  let d := fst (getHandshakeContext hc) in
  let finishedKey := expandLabel Hash baseKey "finished" [] (HashLen Hash) in
  fst (getFinishedData baseKey hc) = hmac Hash finishedKey d.
Proof.
  intros d finishedKey. rewrite getFinishedData_unfold. simpl.
  apply write_range_exact.
  rewrite IOBuf_append_length. simpl.
  apply (hmac_length Hash laws).
Qed.

Lemma getFinishedData_is_hmac_of_digest_witness :
  let hc := after Sha256 [AppendToTranscript ClientHello;
                          AppendToTranscript ServerHello] in
  fst (getFinishedData (repeat x0b 32) hc)
  = hmac Sha256 (expandLabel Sha256 (repeat x0b 32) "finished" [] 32)
      (fst (getHandshakeContext hc)).
Proof.
  exact (getFinishedData_is_hmac_of_digest Sha256 Sha256_lawful
           (repeat x0b 32)
           (after Sha256 [AppendToTranscript ClientHello;
                          AppendToTranscript ServerHello])).
Defined.

(** C3: [getHandshakeContext] leaves the transcript state as it was: two
    calls in a row return the same Digest, and whatever calls follow
    return what they would have returned without the two calls. *)
Theorem getHandshakeContext_does_not_mutate
  (Hash : HashPolicy) (hc : HandshakeContextImpl Hash) :
  let '(d1, hc1) := getHandshakeContext hc in
  let '(d2, hc2) := getHandshakeContext hc1 in
  d1 = d2 /\ hc1 = hc /\ hc2 = hc
  /\ forall cs : list call, run_calls cs hc2 = run_calls cs hc.
Proof.
  pose proof (getHandshakeContext_state Hash hc) as H1.
  destruct (getHandshakeContext hc) as [d1 hc1] eqn:E1.
  simpl in H1. subst hc1. rewrite E1.
  repeat split; reflexivity.
Qed.

(** C4 as the spec states it fails: one append of "ab" and the appends of
    "a" then "b" are distinct non-empty sequences over the same bytes, and
    their Digests are equal. *)
Lemma regrouping_keeps_digest :
  let l1 := [str "ab"] in
  let l2 := [str "a"; str "b"] in
  (l1 <> [] /\ l2 <> [] /\ l1 <> l2
   /\ Permutation (concat l1) (concat l2)
   /\ transcript_digest Sha256 l1 = transcript_digest Sha256 l2)
  /\ ~ regrouping_changes_digest Sha256.
Proof.
  assert (H : [str "ab"] <> [] /\ [str "a"; str "b"] <> []
              /\ [str "ab"] <> [str "a"; str "b"]
              /\ Permutation (concat [str "ab"]) (concat [str "a"; str "b"])
              /\ transcript_digest Sha256 [str "ab"]
                 = transcript_digest Sha256 [str "a"; str "b"]).
  { split; [discriminate|]. split; [discriminate|].
    split; [discriminate|]. split.
    - apply Permutation_refl.
    - rewrite !(transcript_digest_concat Sha256 Sha256_lawful).
      apply f_equal. reflexivity. }
  split; [exact H|].
  intros claim. destruct H as (H1 & H2 & H3 & H4 & H5).
  exact (claim _ _ H1 H2 H3 H4 H5).
Qed.

(** C4, amended: the Digest depends on the appended bytes only through
    their concatenation.  Sequences with the same concatenation, however
    grouped, give the same Digest; two sequences give different Digests
    exactly when the hash policy separates their concatenations, as SHA-256
    and SHA-384 do for "a","b" against "b","a". *)
Theorem digest_depends_on_concatenation :
  (forall Hash : HashPolicy, Lawful Hash ->
     forall l1 l2 : list Buf,
       (concat l1 = concat l2 ->
        transcript_digest Hash l1 = transcript_digest Hash l2)
       /\ (transcript_digest Hash l1 <> transcript_digest Hash l2 <->
           hash_once Hash (concat l1) <> hash_once Hash (concat l2)))
  /\ transcript_digest Sha256 [str "a"; str "b"]
     <> transcript_digest Sha256 [str "b"; str "a"]
  /\ transcript_digest Sha384 [str "a"; str "b"]
     <> transcript_digest Sha384 [str "b"; str "a"].
Proof.
  split; [|split].
  - intros Hash laws l1 l2.
    rewrite !(transcript_digest_concat Hash laws). split.
    + intros ->. reflexivity.
    + reflexivity.
  - intros H. vm_compute in H. discriminate H.
  - intros H. vm_compute in H. discriminate H.
Qed.

Lemma digest_depends_on_concatenation_witness :
  transcript_digest Sha256 [str "ab"; str "c"]
  = transcript_digest Sha256 [str "a"; str "bc"].
Proof.
  apply (proj1 digest_depends_on_concatenation Sha256 Sha256_lawful).
  reflexivity.
Defined.

(** C5: [getFinishedData] is deterministic: a second invocation with the
    same key on the same context returns the same tag, and so do
    invocations on contexts to which the same byte strings were appended,
    whatever reads came in between. *)
Theorem getFinishedData_deterministic
  (Hash : HashPolicy) (baseKey : bytes) :
  (forall hc : HandshakeContextImpl Hash,
     let '(t1, hc1) := getFinishedData baseKey hc in
     let '(t2, _) := getFinishedData baseKey hc1 in
     t1 = t2)
  /\ (forall cs1 cs2 : list call,
        appended cs1 = appended cs2 ->
        fst (getFinishedData baseKey (after Hash cs1))
        = fst (getFinishedData baseKey (after Hash cs2))).
Proof.
  split.
  - intros hc. rewrite getFinishedData_unfold.
    rewrite getFinishedData_unfold. reflexivity.
  - intros cs1 cs2 Happ.
    assert (Hst : after Hash cs1 = after Hash cs2).
    { pose proof (after_state Hash cs1) as H1.
      pose proof (after_state Hash cs2) as H2.
      rewrite Happ in H1. rewrite <- H2 in H1.
      destruct (after Hash cs1), (after Hash cs2). simpl in H1.
      now subst. }
    now rewrite Hst.
Qed.

Lemma getFinishedData_deterministic_witness :
  fst (getFinishedData (repeat x0b 32)
         (after Sha256 [AppendToTranscript ClientHello; GetHandshakeContext;
                        AppendToTranscript ServerHello]))
  = fst (getFinishedData (repeat x0b 32)
           (after Sha256 [AppendToTranscript ClientHello;
                          AppendToTranscript ServerHello;
                          GetFinishedData (repeat x01 32)])).
Proof.
  apply (proj2 (getFinishedData_deterministic Sha256 (repeat x0b 32))).
  reflexivity.
Defined.

(** C10: the Digest returned by [getHandshakeContext] and the tag returned
    by [getFinishedData] are both exactly [Hash::HashLen] bytes long. *)
Theorem digest_and_tag_have_HashLen
  (Hash : HashPolicy) (hc : HandshakeContextImpl Hash) (baseKey : bytes) :
  length (fst (getHandshakeContext hc)) = HashLen Hash
  /\ length (fst (getFinishedData baseKey hc)) = HashLen Hash.
Proof.
  split.
  - apply getHandshakeContext_length.
  - rewrite getFinishedData_unfold. simpl.
    now rewrite write_range_length, IOBuf_append_length.
Qed.

(** ** The driver *)

Section DriverFacts.
Variables (World Action : Type).
Variable processUnit :
  World -> UnitOfWork -> option (World * list Action * bool).
Variable visit : Action -> World -> World * list Call.
Variable failEvent : string -> PendingEvent -> World -> World.
Variable eventsFirst : bool.

Local Abbreviation State := (FizzBase World Action).
Local Abbreviation fail := (moveToErrorState failEvent).
Local Abbreviation loop_of fuel :=
  (drainLoop processUnit visit failEvent eventsFirst fuel).
Local Abbreviation call_over := (invoke_over failEvent).
Local Abbreviation dispatch loop := (dispatch_over visit failEvent loop).

(** *** The error path *)

Lemma fail_queue (ex : string) (q : list PendingEvent) : forall t : State,
  let t' :=
    fold_left
      (fun s e => record (Failed e) (set_env (failEvent ex e (env s)) s))
      q t in
  log t' = log t ++ map Failed q
  /\ pendingEvents_ t' = pendingEvents_ t
  /\ waitForData_ t' = waitForData_ t
  /\ actionGuard_ t' = actionGuard_ t
  /\ inProcessPendingEvents_ t' = inProcessPendingEvents_ t
  /\ inErrorState_ t' = inErrorState_ t
  /\ aggregate t' = aggregate t.
Proof.
  induction q as [|e q IH]; intros t; simpl.
  - rewrite app_nil_r. repeat split.
  - destruct (IH (record (Failed e) (set_env (failEvent ex e (env t)) t)))
      as (Hl & Hq & Hw & Hg & Hp & He & Ha).
    simpl in *. rewrite Hl, <- app_assoc. repeat split; assumption.
Qed.

(** [moveToErrorState] sets the flag for good, fails what is queued, and
    touches no other flag. *)
Lemma fail_spec (ex : string) (s : State) :
  let s' := fail ex s in
  inErrorState_ s' = true
  /\ inProcessPendingEvents_ s' = inProcessPendingEvents_ s
  /\ waitForData_ s' = waitForData_ s
  /\ aggregate s' = aggregate s
  /\ (if inErrorState_ s then s' = s
      else pendingEvents_ s' = []
           /\ log s' = log s ++ map Failed (pendingEvents_ s)).
Proof.
  unfold moveToErrorState.
  destruct (inErrorState_ s) eqn:E; simpl.
  - repeat split; assumption.
  - destruct (fail_queue ex (pendingEvents_ s)
                (set_pendingEvents [] (set_inErrorState true s)))
      as (Hl & Hq & Hw & Hg & Hp & He & Ha).
    simpl in *. repeat split; assumption.
Qed.

(** *** Calls while a drain pass runs *)

Lemma call_split (loop : State -> State) (c : Call) (s : State) :
  call_over loop c s =
  if attempts_drain c
  then processPendingEvents_over loop (reentrant failEvent c s)
  else reentrant failEvent c s.
Proof. destruct c; reflexivity. Qed.

(** A call made while the loop runs does not enter the loop. *)
Lemma call_reentrant (loop : State -> State) (c : Call) (s : State) :
  inProcessPendingEvents_ s = true ->
  call_over loop c s = reentrant failEvent c s.
Proof.
  intros Hd. rewrite call_split.
  destruct (attempts_drain c); [|reflexivity].
  unfold processPendingEvents_over.
  assert (H : inProcessPendingEvents_ (reentrant failEvent c s) = true).
  { destruct c; simpl; try assumption.
    now rewrite (proj1 (proj2 (fail_spec ex (record (Accepted (MoveToErrorState ex)) s)))). }
  now rewrite H.
Qed.

Lemma reentrant_flag (c : Call) (s : State) :
  inProcessPendingEvents_ (reentrant failEvent c s)
  = inProcessPendingEvents_ s.
Proof.
  destruct c; simpl; try reflexivity.
  now rewrite (proj1 (proj2 (fail_spec ex (record (Accepted (MoveToErrorState ex)) s)))).
Qed.

Lemma reentrant_aggregate (c : Call) (s : State) :
  aggregate (reentrant failEvent c s) = aggregate s.
Proof.
  destruct c; simpl; try reflexivity.
  now rewrite (proj1 (proj2 (proj2 (proj2
    (fail_spec ex (record (Accepted (MoveToErrorState ex)) s)))))).
Qed.

Lemma reentrant_log (c : Call) (s : State) :
  log (reentrant failEvent c s) = log s ++ reentrant_obs c s.
Proof.
  destruct c; simpl; try reflexivity.
  pose proof (fail_spec ex (record (Accepted (MoveToErrorState ex)) s)) as H.
  simpl in H. destruct H as (_ & _ & _ & _ & H).
  unfold reentrant_obs.
  destruct (inErrorState_ s).
  - now rewrite H.
  - destruct H as [_ H]. rewrite H. now rewrite <- app_assoc.
Qed.

(** *** Taking the next unit of work *)

Lemma set_env_same (s : State) : set_env (env s) s = s.
Proof. now destruct s. Qed.

Lemma nextUnit_flags (s s1 : State) (u : UnitOfWork) :
  nextUnit eventsFirst s = Some (u, s1) ->
  inProcessPendingEvents_ s1 = inProcessPendingEvents_ s
  /\ inErrorState_ s1 = inErrorState_ s
  /\ waitForData_ s1 = waitForData_ s
  /\ aggregate s1 = aggregate s
  /\ env s1 = env s
  /\ log s1 = log s
  /\ match u with
     | SocketData =>
         waitForData_ s = false /\ pendingEvents_ s1 = pendingEvents_ s
     | Event e => pendingEvents_ s = e :: pendingEvents_ s1
     end.
Proof.
  unfold nextUnit, nextEvent, nextSocketData.
  destruct eventsFirst, (pendingEvents_ s) as [|e q] eqn:Eq,
    (waitForData_ s) eqn:Ew;
    intros H; inversion H; subst; simpl; repeat split; assumption.
Qed.

(** *** Invariants of a run

    A property of the driver that every step keeps holds after any run.
    The steps are those of the model: a call before its attempt to drain,
    the dispatch of an action, the hand-over of a unit of work, the move to
    the error state, and entering and leaving a drain pass. *)

Section LoopInvariant.
Variable I : State -> Prop.
Hypothesis I_env : forall w s, I s -> I (set_env w s).
Hypothesis I_guard : forall b s, I s -> I (set_actionGuard b s).
Hypothesis I_aggregate : forall a s, I s -> I (set_aggregate a s).
Hypothesis I_call : forall c s, I s -> I (reentrant failEvent c s).
Hypothesis I_dispatched : forall a s, I s -> I (record (Dispatched a) s).
Hypothesis I_take : forall u s1 r s,
  inProcessPendingEvents_ s = true ->
  nextUnit eventsFirst s = Some (u, s1) ->
  I s -> I (record (Processed u r) s1).
Hypothesis I_fail : forall ex s, I s -> I (fail ex s).

Lemma calls_draining (loop : State -> State) (cs : list Call) :
  forall s, draining I s ->
  draining I (fold_left (fun s c => call_over loop c s) cs s).
Proof.
  induction cs as [|c cs IH]; intros s [Hd Hi]; simpl; [now split|].
  apply IH. rewrite call_reentrant by assumption.
  split; [now rewrite reentrant_flag | now apply I_call].
Qed.

Lemma dispatch_draining (loop : State -> State) (acts : list Action) :
  forall s, draining I s -> draining I (dispatch loop acts s).
Proof.
  unfold dispatch_over.
  induction acts as [|a acts IH]; intros s [Hd Hi]; simpl; [now split|].
  apply IH. destruct (visit a (env s)) as [w calls].
  apply calls_draining. split; [assumption|].
  now apply I_dispatched, I_env.
Qed.

Lemma loop_draining (fuel : nat) :
  forall s, draining I s -> draining I (loop_of fuel s).
Proof.
  induction fuel as [|fuel IH]; intros s [Hd Hi]; simpl; [now split|].
  destruct (inErrorState_ s) eqn:He; [now split|].
  destruct (nextUnit eventsFirst s) as [[u s1]|] eqn:En.
  2:{ split; [assumption | now apply I_guard]. }
  destruct (nextUnit_flags s s1 u En) as (Hd1 & He1 & _ & _ & Henv & _).
  simpl.
  destruct (processUnit (env s1) u) as [[[w acts] completes]|] eqn:Ep.
  - assert (H1 : draining I
      (set_aggregate
         (aggregate (record (Processed u (Some acts))
                       (set_env w (set_actionGuard true s1))) ++ acts)
         (record (Processed u (Some acts))
            (set_env w (set_actionGuard true s1))))).
    { split; [simpl; congruence|].
      apply I_aggregate.
      assert (H0 : I (record (Processed u (Some acts)) s1))
        by (now apply (I_take u s1 (Some acts) s)).
      apply (I_guard true), (I_env w) in H0. exact H0. }
    apply IH. destruct completes; [|exact H1].
    apply dispatch_draining. destruct H1 as [H1 H2].
    split; [exact H1 | now apply I_aggregate].
  - split.
    + rewrite (proj1 (proj2 (fail_spec _ _))). simpl. congruence.
    + apply I_fail.
      assert (H0 : I (record (Processed u None) s1))
        by (now apply (I_take u s1 None s)).
      apply (I_guard true) in H0. exact H0.
Qed.

End LoopInvariant.

Section RunInvariant.
Variable I : State -> Prop.
Hypothesis I_call : forall c s, I s -> I (reentrant failEvent c s).
Hypothesis I_loop : forall fuel s,
  draining I s -> draining I (loop_of fuel s).
Hypothesis I_enter : forall s,
  inProcessPendingEvents_ s = false ->
  I s -> I (record EnterDrain (set_inProcessPendingEvents true s)).
Hypothesis I_leave : forall s,
  inProcessPendingEvents_ s = true ->
  I s -> I (record LeaveDrain (set_inProcessPendingEvents false s)).

Lemma attempt_idle (fuel : nat) (s : State) :
  idle I s -> idle I (processPendingEvents_over (loop_of fuel) s).
Proof.
  intros [Hd Hi]. unfold processPendingEvents_over. rewrite Hd.
  destruct (I_loop fuel
              (record EnterDrain (set_inProcessPendingEvents true s)))
    as [Hd' Hi'].
  { split; [reflexivity | now apply I_enter]. }
  split; [reflexivity | now apply I_leave].
Qed.

Lemma invoke_idle (fuel : nat) (c : Call) (s : State) :
  idle I s ->
  idle I (invoke processUnit visit failEvent eventsFirst fuel c s).
Proof.
  intros [Hd Hi]. unfold invoke. rewrite call_split.
  assert (H : idle I (reentrant failEvent c s))
    by (split; [now rewrite reentrant_flag | now apply I_call]).
  destruct (attempts_drain c); [now apply attempt_idle | exact H].
Qed.

Lemma run_idle (fuel : nat) (cs : list Call) : forall s,
  idle I s -> idle I (run processUnit visit failEvent eventsFirst fuel cs s).
Proof.
  unfold run. induction cs as [|c cs IH]; intros s H; simpl; [exact H|].
  apply IH. now apply invoke_idle.
Qed.

End RunInvariant.

(** All the step conditions together give an invariant of every run. *)
Lemma run_invariant (I : State -> Prop) :
  (forall w s, I s -> I (set_env w s)) ->
  (forall b s, I s -> I (set_actionGuard b s)) ->
  (forall a s, I s -> I (set_aggregate a s)) ->
  (forall c s, I s -> I (reentrant failEvent c s)) ->
  (forall a s, I s -> I (record (Dispatched a) s)) ->
  (forall u s1 r s,
     inProcessPendingEvents_ s = true ->
     nextUnit eventsFirst s = Some (u, s1) ->
     I s -> I (record (Processed u r) s1)) ->
  (forall ex s, I s -> I (fail ex s)) ->
  (forall s, inProcessPendingEvents_ s = false ->
     I s -> I (record EnterDrain (set_inProcessPendingEvents true s))) ->
  (forall s, inProcessPendingEvents_ s = true ->
     I s -> I (record LeaveDrain (set_inProcessPendingEvents false s))) ->
  forall fuel cs s,
    idle I s -> idle I (run processUnit visit failEvent eventsFirst fuel cs s).
Proof.
  intros He Hg Ha Hc Hd Ht Hf Hen Hl fuel cs s.
  apply run_idle; try assumption.
  intros fuel' s'. now apply loop_draining.
Qed.

(** *** Reading a log that grows *)

Lemma handled_failed (q : list PendingEvent) :
  handled_events (map (@Failed Action) q) = q.
Proof. induction q as [|e q IH]; simpl; congruence. Qed.

Lemma accepted_failed (q : list PendingEvent) :
  accepted_events (map (@Failed Action) q) = [].
Proof. induction q as [|e q IH]; simpl; congruence. Qed.

Lemma processed_failed (q : list PendingEvent) :
  processed_units (map (@Failed Action) q) = [].
Proof. induction q as [|e q IH]; simpl; congruence. Qed.

Lemma produced_failed (q : list PendingEvent) :
  produced_actions (map (@Failed Action) q) = [].
Proof. induction q as [|e q IH]; simpl; congruence. Qed.

Lemma dispatched_failed (q : list PendingEvent) :
  dispatched_actions (map (@Failed Action) q) = [].
Proof. induction q as [|e q IH]; simpl; congruence. Qed.

Lemma pass_failed (q : list PendingEvent) (st : option bool) :
  fold_left pass_step (map (@Failed Action) q) st = st.
Proof. induction q as [|e q IH]; simpl; congruence. Qed.

Lemma pass_state_app (l l' : list (Obs Action)) :
  pass_state (l ++ l') = fold_left pass_step l' (pass_state l).
Proof. apply fold_left_app. Qed.

Lemma pass_reentrant (c : Call) (s : State) (st : option bool) :
  fold_left pass_step (reentrant_obs c s) st = st.
Proof.
  unfold reentrant_obs. simpl.
  destruct c; try reflexivity.
  destruct (inErrorState_ s); [reflexivity | apply pass_failed].
Qed.

(** Once a log is out of order, it stays so: what holds of a log held of
    each of its beginnings. *)
Lemma pass_broken (l : list (Obs Action)) : fold_left pass_step l None = None.
Proof.
  induction l as [|o l IH]; [reflexivity|].
  simpl. now destruct o.
Qed.

Lemma pass_state_prefix (l l' : list (Obs Action)) :
  pass_state (l ++ l') <> None -> pass_state l <> None.
Proof.
  rewrite pass_state_app. intros H E. rewrite E in H.
  now rewrite pass_broken in H.
Qed.

(** *** Events leave the queue in the order accepted *)

Lemma fifo_fail (ex : string) (s : State) : fifo s -> fifo (fail ex s).
Proof.
  unfold fifo. intros H.
  destruct (fail_spec ex s) as (_ & _ & _ & _ & Hs).
  destruct (inErrorState_ s).
  - now rewrite Hs.
  - destruct Hs as [Hq Hl]. rewrite Hq, Hl.
    unfold handled_events, accepted_events in *.
    rewrite !flat_map_app.
    fold (handled_events (map (@Failed Action) (pendingEvents_ s))).
    fold (accepted_events (map (@Failed Action) (pendingEvents_ s))).
    rewrite handled_failed, accepted_failed, !app_nil_r. exact H.
Qed.

Lemma fifo_record (o : Obs Action) (s : State) :
  handled_events [o] = [] -> accepted_events [o] = [] ->
  fifo s -> fifo (record o s).
Proof.
  unfold fifo, handled_events, accepted_events. simpl.
  intros Hh Ha H. rewrite !flat_map_app. simpl.
  rewrite app_nil_r in Hh, Ha. rewrite Hh, Ha, !app_nil_r. exact H.
Qed.

Lemma fifo_call (c : Call) (s : State) :
  fifo s -> fifo (reentrant failEvent c s).
Proof.
  intros H.
  assert (Hsub : forall e, event_of_call c = Some e ->
            fifo (enqueue e (record (Accepted c) s))).
  { intros e He. unfold fifo, handled_events, accepted_events in *. simpl.
    rewrite !flat_map_app. simpl. rewrite He. simpl.
    rewrite app_nil_r, app_assoc. now rewrite H. }
  destruct c; simpl;
    try (apply Hsub; reflexivity);
    try (apply fifo_fail);
    (apply (fifo_record _ s); [reflexivity | reflexivity | exact H]).
Qed.

Lemma fifo_take (u : UnitOfWork) (s1 : State) (r : option (list Action))
  (s : State) :
  nextUnit eventsFirst s = Some (u, s1) ->
  fifo s -> fifo (record (Processed u r) s1).
Proof.
  intros Hn H.
  destruct (nextUnit_flags s s1 u Hn) as (_ & _ & _ & _ & _ & Hl & Hu).
  unfold fifo, handled_events, accepted_events in *. simpl.
  rewrite !flat_map_app, Hl.
  destruct u as [|e]; simpl; rewrite !app_nil_r.
  - destruct Hu as [_ Hq]. now rewrite Hq.
  - rewrite Hu in H. now rewrite <- app_assoc.
Qed.

Lemma run_fifo (fuel : nat) (cs : list Call) (s : State) :
  idle fifo s ->
  idle fifo (run processUnit visit failEvent eventsFirst fuel cs s).
Proof.
  apply run_invariant.
  - intros w t H. exact H.
  - intros b t H. exact H.
  - intros a t H. exact H.
  - apply fifo_call.
  - intros a t H. now apply fifo_record.
  - intros u s1 r t _. apply fifo_take.
  - apply fifo_fail.
  - intros t _ H. now apply (fifo_record EnterDrain).
  - intros t _ H. now apply (fifo_record LeaveDrain).
Qed.

(** *** One drain pass at a time *)

Lemma in_pass_fail (ex : string) (s : State) :
  in_pass s -> in_pass (fail ex s).
Proof.
  unfold in_pass. intros H.
  destruct (fail_spec ex s) as (_ & Hd & _ & _ & Hs).
  rewrite Hd. destruct (inErrorState_ s).
  - now rewrite Hs.
  - destruct Hs as [_ Hl]. now rewrite Hl, pass_state_app, pass_failed.
Qed.

Lemma run_in_pass (fuel : nat) (cs : list Call) (s : State) :
  idle in_pass s ->
  idle in_pass (run processUnit visit failEvent eventsFirst fuel cs s).
Proof.
  apply run_invariant; unfold in_pass.
  - intros w t H. exact H.
  - intros b t H. exact H.
  - intros a t H. exact H.
  - intros c t H.
    now rewrite reentrant_log, reentrant_flag, pass_state_app, pass_reentrant.
  - intros a t H. simpl. now rewrite pass_state_app, H.
  - intros u s1 r t Hd Hn H.
    destruct (nextUnit_flags t s1 u Hn) as (Hd1 & _ & _ & _ & _ & Hl & _).
    simpl. now rewrite pass_state_app, Hl, H, Hd1, Hd.
  - apply in_pass_fail.
  - intros t Hd H. simpl. now rewrite pass_state_app, H, Hd.
  - intros t Hd H. simpl. now rewrite pass_state_app, H, Hd.
Qed.

(** *** Suspended until resumed *)

Lemma suspended_app (l l' : list (Obs Action)) :
  suspended_until_resumed l ->
  resumed l \/ suspended_until_resumed l' ->
  suspended_until_resumed (l ++ l').
Proof.
  unfold resumed.
  induction l as [|o l IH]; intros Hl H; simpl.
  - destruct H as [[]|H]; exact H.
  - destruct o as [c|u r|a|e| |]; simpl in Hl.
    + destruct c; try exact I;
        (apply IH; [exact Hl | destruct H as [[H|H]|H];
                                [discriminate H | now left | now right]]).
    + destruct u; [contradiction|].
      apply IH; [exact Hl|].
      destruct H as [[H|H]|H]; [discriminate H | now left | now right].
    + apply IH; [exact Hl|].
      destruct H as [[H|H]|H]; [discriminate H | now left | now right].
    + apply IH; [exact Hl|].
      destruct H as [[H|H]|H]; [discriminate H | now left | now right].
    + apply IH; [exact Hl|].
      destruct H as [[H|H]|H]; [discriminate H | now left | now right].
    + apply IH; [exact Hl|].
      destruct H as [[H|H]|H]; [discriminate H | now left | now right].
Qed.

Lemma suspended_failed (q : list PendingEvent) :
  suspended_until_resumed (map (@Failed Action) q).
Proof. induction q as [|e q IH]; simpl; [exact I | exact IH]. Qed.

Lemma suspended_record (o : Obs Action) (s : State) :
  suspended_until_resumed [o] ->
  suspended s -> suspended (record o s).
Proof.
  intros Ho [Hl Hw]. split; simpl.
  - apply suspended_app; [exact Hl | now right].
  - intros H. apply in_or_app. left. now apply Hw.
Qed.

Lemma suspended_fail (ex : string) (s : State) :
  suspended s -> suspended (fail ex s).
Proof.
  intros [Hl Hw].
  destruct (fail_spec ex s) as (_ & _ & Hwd & _ & Hs).
  destruct (inErrorState_ s).
  - rewrite Hs. now split.
  - destruct Hs as [_ Hlog]. split.
    + rewrite Hlog. apply suspended_app; [exact Hl|].
      right. apply suspended_failed.
    + rewrite Hwd, Hlog. intros H. apply in_or_app. left. now apply Hw.
Qed.

Lemma suspended_call (c : Call) (s : State) :
  suspended s -> suspended (reentrant failEvent c s).
Proof.
  intros H.
  assert (Hrec : forall c', suspended (record (Accepted c') s)).
  { intros c'. apply suspended_record; [|exact H].
    destruct c'; exact I. }
  destruct c; simpl.
  - apply Hrec.
  - apply Hrec.
  - apply Hrec.
  - apply Hrec.
  - destruct (Hrec WaitForData) as [Hl _].
    split; [exact Hl | discriminate].
  - destruct H as [Hl Hw]. split; simpl.
    + apply suspended_app; [exact Hl | right; exact I].
    + intros _. apply in_or_app. right. now left.
  - apply suspended_fail. apply Hrec.
Qed.

Lemma run_suspended (fuel : nat) (cs : list Call) (s : State) :
  idle suspended s ->
  idle suspended (run processUnit visit failEvent eventsFirst fuel cs s).
Proof.
  apply run_invariant.
  - intros w t H. exact H.
  - intros b t H. exact H.
  - intros a t H. exact H.
  - apply suspended_call.
  - intros a t H. now apply suspended_record.
  - intros u s1 r t _ Hn [Hl Hw].
    destruct (nextUnit_flags t s1 u Hn) as (_ & _ & Hwd & _ & _ & Hlog & Hu).
    split; simpl; rewrite Hlog.
    + apply suspended_app; [exact Hl|].
      destruct u as [|e]; [left; now apply Hw | right; exact I].
    + rewrite Hwd. intros H. apply in_or_app. left. now apply Hw.
  - apply suspended_fail.
  - intros t _ H. now apply (suspended_record EnterDrain).
  - intros t _ H. now apply (suspended_record LeaveDrain).
Qed.

(** *** Actions are dispatched in the order produced *)

Lemma same_actions_call (A D P : list Action) (c : Call) (s : State) :
  same_actions A D P s -> same_actions A D P (reentrant failEvent c s).
Proof.
  unfold same_actions. intros (Ha & Hd & Hp).
  rewrite reentrant_aggregate, reentrant_log.
  unfold dispatched_actions, produced_actions in *.
  rewrite !flat_map_app, Hd, Hp.
  unfold reentrant_obs. simpl.
  assert (Hq : forall q : list PendingEvent,
    flat_map (fun o : Obs Action =>
      match o with Dispatched a => [a] | _ => [] end) (map Failed q) = []
    /\ flat_map (fun o : Obs Action =>
      match o with Processed _ (Some acts) => acts | _ => [] end)
      (map Failed q) = []).
  { intros q. split; [apply dispatched_failed | apply produced_failed]. }
  destruct c; simpl; rewrite ?app_nil_r; try (repeat split; assumption).
  destruct (inErrorState_ s); simpl; rewrite ?app_nil_r;
    try (repeat split; assumption).
  destruct (Hq (pendingEvents_ s)) as [-> ->].
  rewrite !app_nil_r. repeat split; assumption.
Qed.

Lemma dispatch_actions (loop : State -> State) (acts : list Action) :
  forall s, inProcessPendingEvents_ s = true ->
  let s' := dispatch loop acts s in
  inProcessPendingEvents_ s' = true
  /\ aggregate s' = aggregate s
  /\ dispatched_actions (log s') = dispatched_actions (log s) ++ acts
  /\ produced_actions (log s') = produced_actions (log s).
Proof.
  unfold dispatch_over.
  induction acts as [|a acts IH]; intros s Hd; simpl.
  - rewrite app_nil_r. repeat split. exact Hd.
  - destruct (visit a (env s)) as [w calls].
    destruct (calls_draining
                (same_actions (aggregate s)
                   (dispatched_actions (log s) ++ [a])
                   (produced_actions (log s)))
                (same_actions_call _ _ _) loop calls
                (record (Dispatched a) (set_env w s)))
      as (Hd' & Ha & Hdis & Hp).
    { split; [exact Hd|]. unfold same_actions. simpl.
      unfold dispatched_actions, produced_actions.
      rewrite !flat_map_app. simpl. rewrite app_nil_r. repeat split. }
    destruct (IH _ Hd') as (H1 & H2 & H3 & H4).
    simpl in *. rewrite H2, H3, H4, Ha, Hdis, Hp, <- app_assoc.
    repeat split. exact H1.
Qed.

Lemma in_order_fail (ex : string) (s : State) :
  in_order s -> in_order (fail ex s).
Proof.
  unfold in_order. intros H.
  destruct (fail_spec ex s) as (_ & _ & _ & Ha & Hs).
  rewrite Ha. destruct (inErrorState_ s).
  - now rewrite Hs.
  - destruct Hs as [_ Hl]. rewrite Hl.
    unfold dispatched_actions, produced_actions in *.
    rewrite !flat_map_app.
    fold (dispatched_actions (map (@Failed Action) (pendingEvents_ s))).
    fold (produced_actions (map (@Failed Action) (pendingEvents_ s))).
    now rewrite dispatched_failed, produced_failed, !app_nil_r.
Qed.

Lemma in_order_record (o : Obs Action) (s : State) :
  dispatched_actions [o] = [] -> produced_actions [o] = [] ->
  in_order s -> in_order (record o s).
Proof.
  unfold in_order, dispatched_actions, produced_actions. simpl.
  intros Hd Hp H. rewrite !flat_map_app. simpl.
  rewrite app_nil_r in Hd, Hp. now rewrite Hd, Hp, !app_nil_r.
Qed.

Lemma loop_in_order (fuel : nat) :
  forall s, draining in_order s -> draining in_order (loop_of fuel s).
Proof.
  induction fuel as [|fuel IH]; intros s [Hd Hi]; simpl; [now split|].
  destruct (inErrorState_ s) eqn:He; [now split|].
  destruct (nextUnit eventsFirst s) as [[u s1]|] eqn:En.
  2:{ split; [assumption | exact Hi]. }
  destruct (nextUnit_flags s s1 u En) as (Hd1 & _ & _ & Ha1 & _ & Hl1 & _).
  simpl.
  destruct (processUnit (env s1) u) as [[[w acts] completes]|] eqn:Ep.
  - apply IH.
    assert (Hprod : produced_actions (log s1 ++ [Processed u (Some acts)])
                    = produced_actions (log s) ++ acts).
    { unfold produced_actions. rewrite flat_map_app, Hl1. simpl.
      now rewrite app_nil_r. }
    assert (Hdis : dispatched_actions (log s1 ++ [Processed u (Some acts)])
                   = dispatched_actions (log s)).
    { unfold dispatched_actions. rewrite flat_map_app, Hl1. simpl.
      now rewrite app_nil_r. }
    destruct completes.
    + match goal with
      | |- draining _ (dispatch_over _ _ _ ?acts0 ?s0) =>
          destruct (dispatch_actions (loop_of fuel) acts0 s0)
            as (H1 & H2 & H3 & H4)
      end.
      { simpl. congruence. }
      split; [exact H1|]. unfold in_order.
      rewrite H2, H3, H4. simpl. rewrite Hprod, Hdis, Ha1, app_nil_r.
      unfold in_order in Hi. now rewrite app_assoc, Hi.
    + split; [simpl; congruence|]. unfold in_order. simpl.
      rewrite Hprod, Hdis, Ha1. unfold in_order in Hi.
      now rewrite app_assoc, Hi.
  - split.
    + rewrite (proj1 (proj2 (fail_spec _ _))). simpl. congruence.
    + apply in_order_fail. apply in_order_record; try reflexivity.
      unfold in_order in *. simpl. now rewrite Ha1, Hl1.
Qed.

Lemma in_order_call (c : Call) (s : State) :
  in_order s -> in_order (reentrant failEvent c s).
Proof.
  intros H.
  destruct (same_actions_call (aggregate s) (dispatched_actions (log s))
              (produced_actions (log s)) c s) as (Ha & Hd & Hp).
  { repeat split. }
  unfold in_order. now rewrite Ha, Hd, Hp.
Qed.

Lemma run_in_order (fuel : nat) (cs : list Call) (s : State) :
  idle in_order s ->
  idle in_order (run processUnit visit failEvent eventsFirst fuel cs s).
Proof.
  apply run_idle.
  - apply in_order_call.
  - apply loop_in_order.
  - intros t _ H. now apply (in_order_record EnterDrain).
  - intros t _ H. now apply (in_order_record LeaveDrain).
Qed.

(** *** The error state *)

Lemma loop_error (fuel : nat) (s : State) :
  inErrorState_ s = true -> loop_of fuel s = s.
Proof. intros H. destruct fuel; simpl; [reflexivity | now rewrite H]. Qed.

Lemma stays_failed_trans (e1 e2 : list PendingEvent) (s1 s2 s3 : State) :
  stays_failed e1 s1 s2 -> stays_failed e2 s2 s3 ->
  stays_failed (e1 ++ e2) s1 s3.
Proof.
  intros (H1 & H2 & H3) (H4 & H5 & H6). repeat split.
  - exact H4.
  - congruence.
  - now rewrite H6, H3, app_assoc.
Qed.

Lemma reentrant_error (c : Call) (s : State) :
  inErrorState_ s = true ->
  stays_failed (submitted [c]) s (reentrant failEvent c s).
Proof.
  intros He. unfold stays_failed, submitted, processed_units.
  destruct c; simpl; rewrite ?flat_map_app, ?app_nil_r; simpl;
    rewrite ?app_nil_r; try (repeat split; assumption).
  unfold moveToErrorState. simpl. rewrite He. simpl.
  rewrite flat_map_app. simpl. rewrite !app_nil_r. repeat split; assumption.
Qed.

Lemma attempt_error (fuel : nat) (s : State) :
  inErrorState_ s = true ->
  stays_failed [] s (processPendingEvents_over (loop_of fuel) s).
Proof.
  intros He. unfold processPendingEvents_over, stays_failed.
  rewrite app_nil_r.
  destruct (inProcessPendingEvents_ s); [repeat split; assumption|].
  rewrite loop_error by exact He. simpl.
  unfold processed_units. rewrite !flat_map_app. simpl.
  rewrite !app_nil_r. repeat split; assumption.
Qed.

Lemma invoke_error (fuel : nat) (c : Call) (s : State) :
  inErrorState_ s = true ->
  stays_failed (submitted [c]) s
    (invoke processUnit visit failEvent eventsFirst fuel c s).
Proof.
  intros He. unfold invoke. rewrite call_split.
  pose proof (reentrant_error c s He) as H.
  destruct (attempts_drain c); [|exact H].
  rewrite <- (app_nil_r (submitted [c])).
  eapply stays_failed_trans; [exact H|].
  apply attempt_error. apply H.
Qed.

Lemma calls_error (fuel : nat) (cs : list Call) : forall s,
  inErrorState_ s = true ->
  stays_failed (submitted cs) s
    (fold_left (fun s c => call_over (loop_of fuel) c s) cs s).
Proof.
  induction cs as [|c cs IH]; intros s He; cbn [fold_left].
  - unfold stays_failed. simpl. rewrite app_nil_r. repeat split. exact He.
  - assert (Hc : submitted (c :: cs) = submitted [c] ++ submitted cs)
      by (unfold submitted; simpl; now rewrite app_nil_r).
    rewrite Hc.
    pose proof (invoke_error fuel c s He) as H.
    apply (stays_failed_trans (submitted [c]) (submitted cs) s _ _ H).
    apply IH. apply H.
Qed.

Lemma dispatch_error (fuel : nat) (acts : list Action) : forall s,
  inErrorState_ s = true ->
  let s' := dispatch (loop_of fuel) acts s in
  inErrorState_ s' = true
  /\ processed_units (log s') = processed_units (log s).
Proof.
  unfold dispatch_over.
  induction acts as [|a acts IH]; intros s He; simpl; [now split|].
  destruct (visit a (env s)) as [w calls].
  destruct (calls_error fuel calls (record (Dispatched a) (set_env w s)) He)
    as (H1 & H2 & _).
  destruct (IH _ H1) as [H3 H4].
  split; [exact H3|]. rewrite H4, H2. simpl.
  unfold processed_units. rewrite flat_map_app. simpl.
  now rewrite app_nil_r.
Qed.

(** C6: after [moveToErrorState], whatever calls follow, no unit of work
    is handed to the state machine, [inErrorState()] stays true, and the
    events submitted are queued and stay queued.  If the move was made by a
    handler during a drain pass, the same holds while the rest of the
    actions under way are dispatched and the drain loop resumes. *)
Theorem error_state_is_final (ex : string) (s0 : State) (fuel : nat) :
  let s := fail ex s0 in
  inErrorState s = true
  /\ (forall cs : list Call,
        let s' := run processUnit visit failEvent eventsFirst fuel cs s in
        inErrorState s' = true
        /\ processed_units (log s') = processed_units (log s)
        /\ pendingEvents_ s' = pendingEvents_ s ++ submitted cs)
  /\ (forall (cs : list Call) (acts : list Action),
        let s' :=
          loop_of fuel
            (dispatch (loop_of fuel) acts
               (run processUnit visit failEvent eventsFirst fuel cs s)) in
        inErrorState s' = true
        /\ processed_units (log s') = processed_units (log s)).
Proof.
  intros s.
  assert (He : inErrorState_ s = true) by apply fail_spec.
  split; [exact He|]. split.
  - intros cs. apply (calls_error fuel cs s He).
  - intros cs acts. simpl.
    destruct (calls_error fuel cs s He) as (H1 & H2 & _).
    destruct (dispatch_error fuel acts _ H1) as [H3 H4].
    rewrite loop_error by exact H3.
    split; [exact H3|]. unfold run, invoke. now rewrite H4, H2.
Qed.

(** *** The guard against reentry *)

Lemma new_idle (I : State -> Prop) (w : World) :
  I (FizzBase_new Action w) -> idle I (FizzBase_new Action w).
Proof. intros H. split; [reflexivity | exact H]. Qed.

(** C7: in every run of a new driver, a drain pass is entered only while
    none is active and every unit of work is handed to the state machine
    within one pass: at no point of the log are two passes active; and a
    submit made while a pass is running enqueues its event and does not
    enter the loop, whatever the loop is. *)
Theorem one_drain_pass_at_a_time :
  (forall (w : World) (fuel : nat) (cs : list Call),
     let s :=
       run processUnit visit failEvent eventsFirst fuel cs
         (FizzBase_new Action w) in
     inProcessPendingEvents_ s = false
     /\ forall l l', log s = l ++ l' -> pass_state l <> None)
  /\ (forall (loop : State -> State) (c : Call) (e : PendingEvent) (s : State),
        inProcessPendingEvents_ s = true ->
        event_of_call c = Some e ->
        call_over loop c s = enqueue e (record (Accepted c) s)).
Proof.
  split.
  - intros w fuel cs s.
    destruct (run_in_pass fuel cs (FizzBase_new Action w)) as [Hd Hp].
    { now apply new_idle. }
    split; [exact Hd|].
    intros l l' Hl. apply (pass_state_prefix l l').
    rewrite <- Hl. fold s in Hp. unfold in_pass in Hp. now rewrite Hp.
  - intros loop c e s Hd He. rewrite call_reentrant by exact Hd.
    destruct c; simpl in *; try discriminate He;
      inversion He; reflexivity.
Qed.

(** C8, amended: in every run of a new driver the events leave the queue,
    to the state machine or through the error path, in the order in which
    they were accepted, and the actions are dispatched in the order in
    which the state machine produced them; two writes submitted one after
    the other while a pass is running are queued in that order. *)
Theorem events_fifo_actions_in_order :
  (forall (w : World) (fuel : nat) (cs : list Call),
     let s :=
       run processUnit visit failEvent eventsFirst fuel cs
         (FizzBase_new Action w) in
     handled_events (log s) ++ pendingEvents_ s = accepted_events (log s)
     /\ dispatched_actions (log s) ++ aggregate s
        = produced_actions (log s))
  /\ (forall (loop : State -> State) (A B : bytes) (s : State),
        inProcessPendingEvents_ s = true ->
        pendingEvents_ (call_over loop (AppWrite B)
                          (call_over loop (AppWrite A) s))
        = pendingEvents_ s ++ [EvAppWrite A; EvAppWrite B]).
Proof.
  split.
  - intros w fuel cs s. split.
    + apply (run_fifo fuel cs (FizzBase_new Action w)).
      now apply new_idle.
    + apply (run_in_order fuel cs (FizzBase_new Action w)).
      now apply new_idle.
  - intros loop A B s Hd.
    rewrite (call_reentrant loop (AppWrite B)).
    + rewrite (call_reentrant loop (AppWrite A)) by exact Hd.
      simpl. now rewrite <- app_assoc.
    + rewrite (call_reentrant loop (AppWrite A)) by exact Hd.
      exact Hd.
Qed.

(** *** The initial suspension *)

Lemma suspended_no_socket (l : list (Obs Action)) :
  suspended_until_resumed l -> ~ resumed l ->
  ~ In SocketData (processed_units l).
Proof.
  unfold resumed.
  induction l as [|o l IH]; intros Hs Hr; simpl; [tauto|].
  assert (Hr' : ~ In (Accepted NewTransportData) l)
    by (intros H; apply Hr; now right).
  destruct o as [c|u r|a|e| |]; simpl in *.
  - destruct c; try (now apply IH). elim Hr. now left.
  - destruct u as [|e]; [contradiction|].
    intros [H|H]; [discriminate H | now apply (IH Hs Hr')].
  - now apply IH.
  - now apply IH.
  - now apply IH.
  - now apply IH.
Qed.

(** C9: a new driver has [waitForData_] set; in every run from it no
    transport bytes are handed to the state machine before the first
    [newTransportData], and none at all if it is never called. *)
Theorem new_driver_waits_for_data (w : World) :
  waitForData_ (FizzBase_new Action w) = true
  /\ forall (fuel : nat) (cs : list Call),
       let s :=
         run processUnit visit failEvent eventsFirst fuel cs
           (FizzBase_new Action w) in
       suspended_until_resumed (log s)
       /\ (~ In (Accepted NewTransportData) (log s) ->
           ~ In SocketData (processed_units (log s))).
Proof.
  split; [reflexivity|].
  intros fuel cs s.
  destruct (run_suspended fuel cs (FizzBase_new Action w)) as [_ [Hs _]].
  { apply new_idle. split; [exact I | discriminate]. }
  split; [exact Hs|].
  now apply suspended_no_socket.
Qed.

End DriverFacts.

(** *** Runs of the small instance *)

(** C8 as the spec states it fails.  The handler of a close writes "A",
    announces transport data and writes "B", in that order, while the drain
    pass runs.  With queued events ahead of transport bytes the action of
    "B" is dispatched before that of the transport data, accepted earlier;
    with transport bytes ahead, the action of the transport data is
    dispatched before that of "A", accepted earlier. *)
Lemma events_and_transport_data_out_of_order :
  (let s := burst_run true 10 [AppClose] in
   (pendingEvents_ s = [] /\ waitForData_ s = true)
   /\ accepted_inputs (log s)
      = [Event EvAppClose; Event (EvAppWrite (str "A")); SocketData;
         Event (EvAppWrite (str "B"))]
   /\ dispatched_actions (log s)
      = [Event EvAppClose; Event (EvAppWrite (str "A"));
         Event (EvAppWrite (str "B")); SocketData]
   /\ ~ in_acceptance_order (log s))
  /\ (let s := burst_run false 10 [AppClose] in
      (pendingEvents_ s = [] /\ waitForData_ s = true)
      /\ accepted_inputs (log s)
         = [Event EvAppClose; Event (EvAppWrite (str "A")); SocketData;
            Event (EvAppWrite (str "B"))]
      /\ dispatched_actions (log s)
         = [Event EvAppClose; SocketData; Event (EvAppWrite (str "A"));
            Event (EvAppWrite (str "B"))]
      /\ ~ in_acceptance_order (log s)).
Proof.
  split;
    (split; [split; reflexivity|]; split; [reflexivity|];
     split; [reflexivity|]);
    intros [rest H]; vm_compute in H; discriminate H.
Qed.

Lemma one_drain_pass_at_a_time_witness :
  let s := set_inProcessPendingEvents true (FizzBase_new UnitOfWork tt) in
  invoke_over ignoreFailure
    (drainLoop echoMachine burstVisitor ignoreFailure true 5)
    (AppWrite (str "A")) s
  = enqueue (EvAppWrite (str "A")) (record (Accepted (AppWrite (str "A"))) s).
Proof.
  apply (proj2 (one_drain_pass_at_a_time unit UnitOfWork echoMachine
                  burstVisitor ignoreFailure true));
    reflexivity.
Defined.

Lemma events_fifo_actions_in_order_witness :
  let s := set_inProcessPendingEvents true (FizzBase_new UnitOfWork tt) in
  let loop := drainLoop echoMachine burstVisitor ignoreFailure true 5 in
  pendingEvents_
    (invoke_over ignoreFailure loop (AppWrite (str "B"))
       (invoke_over ignoreFailure loop (AppWrite (str "A")) s))
  = [EvAppWrite (str "A"); EvAppWrite (str "B")].
Proof.
  apply (proj2 (events_fifo_actions_in_order unit UnitOfWork echoMachine
                  burstVisitor ignoreFailure true)).
  reflexivity.
Defined.

Lemma new_driver_waits_for_data_witness :
  ~ In SocketData
      (processed_units
         (log (burst_run true 10
                 [AppWrite (str "C"); EarlyAppWrite (str "D")]))).
Proof.
  apply (proj2 (new_driver_waits_for_data unit UnitOfWork echoMachine
                  burstVisitor ignoreFailure true tt)
           10%nat [AppWrite (str "C"); EarlyAppWrite (str "D")]).
  vm_compute. intros H.
  repeat (destruct H as [H|H]; [discriminate H|]).
  exact H.
Defined.

(** *** Known answers of the hash policies *)

Example sha256_abc :
  hash_once Sha256 (str "abc")
  = be_bytes 32
      0xba7816bf8f01cfea414140de5dae2223b00361a396177a9cb410ff61f20015ad.
Proof. vm_compute. reflexivity. Qed.

Example sha384_abc :
  hash_once Sha384 (str "abc")
  = be_bytes 48
      0xcb00753f45a35e8bb5a03d699ac65007272c32ab0eded1631a8b605a43ff5bed8086072ba1e7cc2358baeca134c825a7.
Proof. vm_compute. reflexivity. Qed.

Example hmac_sha256_jefe :
  hmac Sha256 (str "Jefe") (str "what do ya want for nothing?")
  = be_bytes 32
      0x5bdcc146bf60754e6a042426089575c75a003f089d2739839dec58b964ec3843.
Proof. vm_compute. reflexivity. Qed.

Example hmac_sha384_jefe :
  hmac Sha384 (str "Jefe") (str "what do ya want for nothing?")
  = be_bytes 48
      0xaf45d2e376484031617f78d2b58a6b1b9c7ef464f5a01b47e42ec3736322445e8e2240ca5e69e2c78b3239ecfab21649.
Proof. vm_compute. reflexivity. Qed.

Example transcript_H1 :
  transcript_digest Sha256 [ClientHello; ServerHello]
  = be_bytes 32
      0x1314fc0610c6d9b5ef3668f71239998a8a65a21ad377490bc391888ac80c56a7.
Proof. vm_compute. reflexivity. Qed.

(** ** More on the handshake transcript *)

Section TranscriptMore.
Variable Hash : HashPolicy.

Lemma run_calls_app (cs1 cs2 : list call) :
  forall hc : HandshakeContextImpl Hash,
  run_calls (cs1 ++ cs2) hc =
  let '(r1, hc1) := run_calls cs1 hc in
  let '(r2, hc2) := run_calls cs2 hc1 in
  (r1 ++ r2, hc2).
Proof.
  induction cs1 as [|c cs1 IH]; intros hc; simpl.
  - unfold ret. now destruct (run_calls cs2 hc).
  - unfold bind at 1 3. destruct (run_call c hc) as [r hc'].
    unfold bind, ret. rewrite IH.
    destruct (run_calls cs1 hc') as [r1 hc1].
    destruct (run_calls cs2 hc1) as [r2 hc2]. reflexivity.
Qed.

Lemma run_calls_length (cs : list call) :
  forall hc : HandshakeContextImpl Hash,
  length (fst (run_calls cs hc)) = length cs.
Proof.
  induction cs as [|c cs IH]; intros hc; simpl; [reflexivity|].
  unfold bind at 1. destruct (run_call c hc) as [r hc'].
  unfold bind, ret. specialize (IH hc').
  destruct (run_calls cs hc') as [rs hc'']. simpl in *. now rewrite IH.
Qed.

Lemma read_state (c : call) (hc : HandshakeContextImpl Hash) :
  is_read c = true -> snd (run_call c hc) = hc.
Proof.
  destruct c as [data| |k]; intros H; try discriminate H.
  - unfold run_call, bind, ret.
    pose proof (getHandshakeContext_state Hash hc) as Hs.
    now destruct (getHandshakeContext hc).
  - unfold run_call, bind at 1, ret. now rewrite getFinishedData_unfold.
Qed.

(** X1: [getHandshakeContext] and [getFinishedData] are reads: put at any
    place in a sequence of calls, one of them changes neither the result of
    any other call nor the context at the end. *)
Theorem reads_do_not_mutate
  (cs1 cs2 : list call) (c : call) (hc : HandshakeContextImpl Hash) :
  is_read c = true ->
  let '(rs, hc') := run_calls (cs1 ++ c :: cs2) hc in
  let '(rs0, hc0) := run_calls (cs1 ++ cs2) hc in
  hc' = hc0
  /\ exists r,
       rs = firstn (length cs1) rs0 ++ r :: skipn (length cs1) rs0.
Proof.
  intros Hread. rewrite !run_calls_app.
  pose proof (run_calls_length cs1 hc) as Hlen.
  destruct (run_calls cs1 hc) as [r1 hc1]. simpl in Hlen.
  simpl. unfold bind at 1.
  pose proof (read_state c hc1 Hread) as Hc.
  destruct (run_call c hc1) as [r hc1']. simpl in Hc. subst hc1'.
  unfold bind, ret.
  destruct (run_calls cs2 hc1) as [r2 hc2].
  split; [reflexivity|]. exists r.
  rewrite <- Hlen, firstn_app, skipn_app, firstn_all, skipn_all.
  rewrite Nat.sub_diag. simpl. now rewrite app_nil_r.
Qed.

Section MoreWithLaws.
Hypothesis laws : Lawful Hash.

Lemma digest_after (cs : list call) :
  fst (getHandshakeContext (after Hash cs))
  = hash_once Hash (concat (appended cs)).
Proof.
  unfold hash_once.
  rewrite (getHandshakeContext_digest Hash laws), after_state.
  now rewrite (fold_update_init Hash laws).
Qed.

(** X2: whatever calls were made on a new context, reads among them, the
    Digest is the hash of the concatenation of the payloads appended. *)
Theorem digest_after_any_calls (cs : list call) :
  fst (getHandshakeContext (after Hash cs))
  = hash_once Hash (concat (appended cs))
  /\ forall data : Buf,
       fst (getHandshakeContext
              (snd (appendToTranscript data (after Hash cs))))
       = hash_once Hash (concat (appended cs) ++ data).
Proof.
  split; [apply digest_after|].
  intros data. unfold hash_once.
  rewrite (getHandshakeContext_digest Hash laws). simpl.
  rewrite after_state, (fold_update_init Hash laws).
  now rewrite (update_app Hash laws).
Qed.

(** X3: the Finished value of TLS 1.3: whatever calls were made on a new
    context, [getFinishedData] is the HMAC, keyed with the key expanded
    from the base key under the label "finished", of the hash of the
    concatenation of the payloads appended. *)
Theorem finished_is_hmac_of_transcript_hash
  (baseKey : bytes) (cs : list call) :
  fst (getFinishedData baseKey (after Hash cs))
  = hmac Hash (expandLabel Hash baseKey "finished" [] (HashLen Hash))
      (hash_once Hash (concat (appended cs))).
Proof.
  rewrite getFinishedData_unfold. simpl.
  rewrite digest_after. apply write_range_exact.
  rewrite IOBuf_append_length. simpl.
  apply (hmac_length Hash laws).
Qed.

Lemma concat_nonempty (msgs : list Buf) :
  concat (filter nonempty msgs) = concat msgs.
Proof.
  induction msgs as [|m msgs IH]; simpl; [reflexivity|].
  destruct m as [|b m]; simpl; [exact IH | now rewrite IH].
Qed.

(** X4: the empty edge: the Digest of a new context is the hash of the
    empty string, and appending empty payloads, anywhere, leaves the
    Digest as it is without them. *)
Theorem empty_appends_are_invisible (msgs : list Buf) :
  fst (getHandshakeContext (HandshakeContextImpl_new Hash))
  = hash_once Hash []
  /\ transcript_digest Hash (filter nonempty msgs)
     = transcript_digest Hash msgs.
Proof.
  split.
  - exact (transcript_digest_concat Hash laws []).
  - rewrite !(transcript_digest_concat Hash laws).
    now rewrite concat_nonempty.
Qed.

End MoreWithLaws.

End TranscriptMore.

Lemma reads_do_not_mutate_witness :
  let '(rs, hc') :=
    run_calls [AppendToTranscript ClientHello; GetFinishedData (repeat x0b 32);
               AppendToTranscript ServerHello; GetHandshakeContext]
      (HandshakeContextImpl_new Sha256) in
  let '(rs0, hc0) :=
    run_calls [AppendToTranscript ClientHello;
               AppendToTranscript ServerHello; GetHandshakeContext]
      (HandshakeContextImpl_new Sha256) in
  hc' = hc0 /\ exists r, rs = firstn 1 rs0 ++ r :: skipn 1 rs0.
Proof.
  apply (reads_do_not_mutate Sha256 [AppendToTranscript ClientHello]
           [AppendToTranscript ServerHello; GetHandshakeContext]
           (GetFinishedData (repeat x0b 32))).
  reflexivity.
Defined.

Lemma digest_after_any_calls_witness :
  fst (getHandshakeContext
         (after Sha256 [AppendToTranscript ClientHello; GetHandshakeContext;
                        GetFinishedData (repeat x0b 32);
                        AppendToTranscript ServerHello]))
  = hash_once Sha256 (str "ClientHelloServerHello").
Proof.
  exact (proj1 (digest_after_any_calls Sha256 Sha256_lawful
                  [AppendToTranscript ClientHello; GetHandshakeContext;
                   GetFinishedData (repeat x0b 32);
                   AppendToTranscript ServerHello])).
Defined.

Lemma finished_is_hmac_of_transcript_hash_witness :
  fst (getFinishedData (repeat x0b 32)
         (after Sha256 [AppendToTranscript ClientHello; GetHandshakeContext;
                        AppendToTranscript ServerHello]))
  = hmac Sha256 (expandLabel Sha256 (repeat x0b 32) "finished" [] 32)
      (hash_once Sha256 (str "ClientHelloServerHello")).
Proof.
  exact (finished_is_hmac_of_transcript_hash Sha256 Sha256_lawful
           (repeat x0b 32)
           [AppendToTranscript ClientHello; GetHandshakeContext;
            AppendToTranscript ServerHello]).
Defined.

Lemma empty_appends_are_invisible_witness :
  transcript_digest Sha256 [ClientHello; ServerHello]
  = transcript_digest Sha256 [[]; ClientHello; []; []; ServerHello; []].
Proof.
  exact (proj2 (empty_appends_are_invisible Sha256 Sha256_lawful
                  [[]; ClientHello; []; []; ServerHello; []])).
Defined.

(** ** More on the driver *)

Section DriverMore.
Variables (World Action : Type).
Variable processUnit :
  World -> UnitOfWork -> option (World * list Action * bool).
Variable visit : Action -> World -> World * list Call.
Variable failEvent : string -> PendingEvent -> World -> World.
Variable eventsFirst : bool.

Local Abbreviation State := (FizzBase World Action).
Local Abbreviation loop_of fuel :=
  (drainLoop processUnit visit failEvent eventsFirst fuel).
Local Abbreviation run_of fuel :=
  (run processUnit visit failEvent eventsFirst fuel).

(** *** The transport gate *)

Lemma gate_state_app (l l' : list (Obs Action)) :
  gate_state (l ++ l') = fold_left gate_step l' (gate_state l).
Proof. apply fold_left_app. Qed.

Lemma gate_failed (q : list PendingEvent) (st : option bool) :
  fold_left gate_step (map (@Failed Action) q) st = st.
Proof. induction q as [|e q IH]; simpl; congruence. Qed.

Lemma gate_broken (l : list (Obs Action)) :
  fold_left gate_step l None = None.
Proof.
  induction l as [|o l IH]; [reflexivity|].
  simpl. destruct o as [c|u r|a|e| |]; try exact IH.
  - destruct c; exact IH.
  - destruct u; exact IH.
Qed.

(** An open gate was opened by a [newTransportData] with no [waitForData]
    after it. *)
Lemma gate_open (l : list (Obs Action)) :
  gate_state l = Some true ->
  exists la lb,
    l = la ++ Accepted NewTransportData :: lb
    /\ ~ In (Accepted WaitForData) lb.
Proof.
  induction l as [|o l IH] using rev_ind; [discriminate|].
  rewrite gate_state_app. simpl. intros H.
  assert (Hkeep : gate_state l = Some true ->
                  o <> Accepted WaitForData ->
                  exists la lb,
                    l ++ [o] = la ++ Accepted NewTransportData :: lb
                    /\ ~ In (Accepted WaitForData) lb).
  { intros Hg Ho. destruct (IH Hg) as (la & lb & -> & Hlb).
    exists la, (lb ++ [o]). split.
    - now rewrite <- app_assoc.
    - intros Hin. apply in_app_or in Hin.
      destruct Hin as [Hin|[Hin|[]]]; [now apply Hlb | now apply Ho]. }
  destruct o as [c|u r|a|e| |]; simpl in H;
    try (apply Hkeep; [exact H | discriminate]).
  - destruct c; try (apply Hkeep; [exact H | discriminate]).
    + destruct (gate_state l); discriminate H.
    + exists l, []. split; [reflexivity | intros []].
  - destruct u.
    + apply Hkeep; [|discriminate].
      destruct (gate_state l) as [[|]|]; try discriminate H. reflexivity.
    + apply Hkeep; [exact H | discriminate].
Qed.

Lemma gated_fail (ex : string) (s : State) :
  gated s -> gated (moveToErrorState failEvent ex s).
Proof.
  unfold gated. intros H.
  destruct (fail_spec _ _ failEvent ex s) as (_ & _ & Hw & _ & Hs).
  rewrite Hw. destruct (inErrorState_ s).
  - now rewrite Hs.
  - destruct Hs as [_ Hl]. now rewrite Hl, gate_state_app, gate_failed.
Qed.

Lemma gated_call (c : Call) (s : State) :
  gated s -> gated (reentrant failEvent c s).
Proof.
  intros H. unfold gated in *.
  destruct c; simpl; try (rewrite gate_state_app, H; reflexivity).
  apply gated_fail. unfold gated. simpl.
  now rewrite gate_state_app, H.
Qed.

Lemma run_gated (fuel : nat) (cs : list Call) (s : State) :
  idle gated s -> idle gated (run_of fuel cs s).
Proof.
  apply run_invariant.
  - intros w t H. exact H.
  - intros b t H. exact H.
  - intros a t H. exact H.
  - apply gated_call.
  - intros a t H. unfold gated in *. simpl.
    now rewrite gate_state_app, H.
  - intros u s1 r t _ Hn H. unfold gated in *.
    destruct (nextUnit_flags _ _ _ t s1 u Hn)
      as (_ & _ & Hw & _ & _ & Hl & Hu).
    simpl. rewrite gate_state_app, Hl, H, Hw.
    destruct u as [|e]; simpl; [|reflexivity].
    destruct Hu as [Hu _]. now rewrite Hu.
  - apply gated_fail.
  - intros t _ H. unfold gated in *. simpl.
    now rewrite gate_state_app, H.
  - intros t _ H. unfold gated in *. simpl.
    now rewrite gate_state_app, H.
Qed.

(** X5: [waitForData] pauses the processing of the transport read buffer
    until [newTransportData] is called, at any time: in every run of a new
    driver, each hand-over of transport bytes to the state machine comes
    after a [newTransportData] with no [waitForData] between the two,
    calls from handlers included. *)
Theorem transport_bytes_only_while_resumed
  (w : World) (fuel : nat) (cs : list Call)
  (l1 l2 : list (Obs Action)) (r : option (list Action)) :
  log (run_of fuel cs (FizzBase_new Action w))
  = l1 ++ Processed SocketData r :: l2 ->
  exists la lb,
    l1 = la ++ Accepted NewTransportData :: lb
    /\ ~ In (Accepted WaitForData) lb.
Proof.
  intros Hlog.
  destruct (run_gated fuel cs (FizzBase_new Action w)) as [_ Hg].
  { split; reflexivity. }
  unfold gated in Hg. rewrite Hlog in Hg.
  change (l1 ++ Processed SocketData r :: l2)
    with (l1 ++ [Processed SocketData r] ++ l2) in Hg.
  rewrite !gate_state_app in Hg. simpl in Hg.
  apply gate_open.
  destruct (gate_state l1) as [[|]|]; [reflexivity | |];
    now rewrite gate_broken in Hg.
Qed.

(** *** The log only grows *)

Lemma extends_refl (s : State) : extends (log s) s.
Proof. exists []. now rewrite app_nil_r. Qed.

Lemma extends_more (l0 l' : list (Obs Action)) (s s' : State) :
  log s' = log s ++ l' -> extends l0 s -> extends l0 s'.
Proof.
  intros Hl [l H]. exists (l ++ l'). now rewrite Hl, H, app_assoc.
Qed.

Lemma extends_fail (l0 : list (Obs Action)) (ex : string) (s : State) :
  extends l0 s -> extends l0 (moveToErrorState failEvent ex s).
Proof.
  intros H.
  destruct (fail_spec _ _ failEvent ex s) as (_ & _ & _ & _ & Hs).
  destruct (inErrorState_ s).
  - now rewrite Hs.
  - destruct Hs as [_ Hl]. exact (extends_more l0 _ s _ Hl H).
Qed.

Lemma extends_call (l0 : list (Obs Action)) (c : Call) (s : State) :
  extends l0 s -> extends l0 (reentrant failEvent c s).
Proof. apply extends_more with (l' := reentrant_obs c s), reentrant_log. Qed.

Lemma dispatch_extends (loop : State -> State) (acts : list Action)
  (s : State) :
  inProcessPendingEvents_ s = true ->
  inProcessPendingEvents_ (dispatch_over visit failEvent loop acts s) = true
  /\ extends (log s) (dispatch_over visit failEvent loop acts s).
Proof.
  intros Hd.
  apply (dispatch_draining _ _ visit failEvent (extends (log s))).
  - intros w t H. exact H.
  - apply extends_call.
  - intros a t H. now apply (extends_more _ [Dispatched a] t).
  - split; [exact Hd | apply extends_refl].
Qed.

Lemma loop_extends (fuel : nat) (s : State) :
  inProcessPendingEvents_ s = true ->
  inProcessPendingEvents_ (loop_of fuel s) = true
  /\ extends (log s) (loop_of fuel s).
Proof.
  intros Hd.
  apply (loop_draining _ _ processUnit visit failEvent eventsFirst
           (extends (log s))).
  - intros w t H. exact H.
  - intros b t H. exact H.
  - intros a t H. exact H.
  - apply extends_call.
  - intros a t H. now apply (extends_more _ [Dispatched a] t).
  - intros u s1 r t _ Hn H.
    destruct (nextUnit_flags _ _ _ t s1 u Hn) as (_ & _ & _ & _ & _ & Hl & _).
    apply (extends_more _ [Processed u r] t); [|exact H].
    simpl. now rewrite Hl.
  - apply extends_fail.
  - split; [exact Hd | apply extends_refl].
Qed.

(** The actions of what the state machine answers. *)
Definition actions_of (r : option (World * list Action * bool))
  : option (list Action) :=
  option_map (fun x => snd (fst x)) r.

(** The first iteration of the loop hands over the next unit of work. *)
Lemma loop_first_unit (fuel : nat) (s s1 : State) (u : UnitOfWork) :
  inProcessPendingEvents_ s = true ->
  inErrorState_ s = false ->
  nextUnit eventsFirst s = Some (u, s1) ->
  exists rest,
    log (loop_of (S fuel) s)
    = log s ++ [Processed u (actions_of (processUnit (env s) u))] ++ rest.
Proof.
  intros Hd He Hn. simpl. rewrite He, Hn.
  destruct (nextUnit_flags _ _ _ s s1 u Hn)
    as (Hd1 & He1 & _ & _ & Henv & Hl & _).
  simpl. rewrite Henv.
  destruct (processUnit (env s) u) as [[[w acts] completes]|]; simpl.
  - match goal with
    | |- exists rest, log (drainLoop _ _ _ _ _ ?t) = _ =>
        assert (Ht : exists l, log t = (log s ++ [Processed u (Some acts)]) ++ l
                               /\ inProcessPendingEvents_ t = true)
    end.
    { destruct completes.
      - match goal with
        | |- exists l, log (dispatch_over _ _ ?lp ?a ?t0) = _ /\ _ =>
            destruct (dispatch_extends lp a t0) as [Hf [l Hlog]]
        end.
        + simpl. congruence.
        + exists l. split; [|exact Hf]. rewrite Hlog. simpl. now rewrite Hl.
      - exists []. simpl. rewrite app_nil_r, Hl. split; congruence. }
    destruct Ht as (l & Hlog & Hf).
    match goal with
    | |- exists rest, log (drainLoop _ _ _ _ _ ?t) = _ =>
        destruct (loop_extends fuel t Hf) as [_ [l' Hlog']]
    end.
    exists (l ++ l'). rewrite Hlog', Hlog. now rewrite <- !app_assoc.
  - destruct (fail_spec _ _ failEvent "state machine failure"
                (record (Processed u None) (set_actionGuard true s1)))
      as (_ & _ & _ & _ & Hs).
    simpl in Hs. rewrite He1, He in Hs. destruct Hs as [_ Hlog].
    eexists. rewrite Hlog, Hl, <- app_assoc. reflexivity.
Qed.

(** X6: an idle driver, not in error state and with nothing queued, hands
    an input to the state machine at once: the call is followed, before it
    returns, by a drain pass whose first unit of work is that input
    (transport bytes for [newTransportData]; the event for a submit, unless
    transport bytes are both available and given priority). *)
Theorem idle_driver_processes_at_once
  (s : State) (fuel : nat) (c : Call) (u : UnitOfWork) :
  inProcessPendingEvents_ s = false ->
  inErrorState_ s = false ->
  pendingEvents_ s = [] ->
  input_of_call c = Some u ->
  u = SocketData \/ waitForData_ s = true \/ eventsFirst = true ->
  exists rest,
    log (invoke processUnit visit failEvent eventsFirst (S fuel) c s)
    = log s
      ++ [Accepted c; EnterDrain;
          Processed u (actions_of (processUnit (env s) u))]
      ++ rest.
Proof.
  intros Hd He Hq Hu Hprio.
  unfold invoke. rewrite call_split.
  assert (Hc : attempts_drain c = true
               /\ inProcessPendingEvents_ (reentrant failEvent c s) = false
               /\ inErrorState_ (reentrant failEvent c s) = false
               /\ env (reentrant failEvent c s) = env s
               /\ log (reentrant failEvent c s) = log s ++ [Accepted c]
               /\ exists s1,
                    nextUnit eventsFirst
                      (record EnterDrain
                         (set_inProcessPendingEvents true
                            (reentrant failEvent c s)))
                    = Some (u, s1)).
  { destruct c; simpl in Hu; try discriminate Hu;
      inversion Hu; subst u; simpl;
      (split; [reflexivity|]); (split; [exact Hd|]);
      (split; [exact He|]); (split; [reflexivity|]);
      (split; [reflexivity|]);
      unfold nextUnit, nextEvent, nextSocketData; simpl; rewrite Hq; simpl;
      destruct eventsFirst; try (eexists; reflexivity);
      destruct Hprio as [H|[H|H]]; try discriminate H;
      rewrite H; eexists; reflexivity. }
  destruct Hc as (Ha & Hd1 & He1 & Henv & Hlog & s1 & Hn).
  rewrite Ha. unfold processPendingEvents_over. rewrite Hd1.
  destruct (loop_first_unit fuel
              (record EnterDrain
                 (set_inProcessPendingEvents true (reentrant failEvent c s)))
              s1 u eq_refl He1 Hn) as [rest Hrest].
  exists (rest ++ [LeaveDrain]).
  simpl in *. rewrite Hrest, Henv, Hlog. now rewrite <- !app_assoc.
Qed.

(** *** A dispatch under way *)

Lemma processed_are_call (us : list UnitOfWork) (c : Call) (s : State) :
  processed_are us s -> processed_are us (reentrant failEvent c s).
Proof.
  unfold processed_are. intros H.
  rewrite reentrant_log. unfold processed_units in *.
  rewrite flat_map_app, H. unfold reentrant_obs. simpl.
  destruct c; simpl; try apply app_nil_r.
  destruct (inErrorState_ s); [apply app_nil_r|].
  fold (processed_units (map (@Failed Action) (pendingEvents_ s))).
  rewrite processed_failed. apply app_nil_r.
Qed.

Lemma processed_are_dispatched (us : list UnitOfWork) (a : Action)
  (s : State) :
  processed_are us s -> processed_are us (record (Dispatched a) s).
Proof.
  unfold processed_are, processed_units. simpl. intros H.
  rewrite flat_map_app, H. apply app_nil_r.
Qed.

(** X7: moving to the error state does not stop what is being processed:
    during a drain pass, every action of the aggregate is dispatched to the
    visitor, in order, whatever calls the handlers make, a move to the
    error state included, and no unit of work is handed to the state
    machine in between. *)
Theorem dispatch_is_not_stopped
  (loop : State -> State) (acts : list Action) (s : State) :
  inProcessPendingEvents_ s = true ->
  let s' := dispatch_over visit failEvent loop acts s in
  dispatched_actions (log s') = dispatched_actions (log s) ++ acts
  /\ processed_units (log s') = processed_units (log s)
  /\ inProcessPendingEvents_ s' = true.
Proof.
  intros Hd s'.
  destruct (dispatch_actions _ _ visit failEvent loop acts s Hd)
    as (Hf & _ & Hdis & _).
  destruct (dispatch_draining _ _ visit failEvent
              (processed_are (processed_units (log s)))
              (fun w t H => H)
              (processed_are_call _)
              (processed_are_dispatched _)
              loop acts s (conj Hd eq_refl)) as [_ Hp].
  split; [exact Hdis|]. split; [exact Hp | exact Hf].
Qed.

End DriverMore.

Lemma transport_bytes_only_while_resumed_witness :
  exists la lb,
    [Accepted AppClose; EnterDrain;
     Processed (Event EvAppClose) (Some [Event EvAppClose]);
     Dispatched (Event EvAppClose);
     Accepted (AppWrite (str "A")); Accepted NewTransportData;
     Accepted (AppWrite (str "B"));
     Processed (Event (EvAppWrite (str "A")))
       (Some [Event (EvAppWrite (str "A"))]);
     Dispatched (Event (EvAppWrite (str "A")));
     Processed (Event (EvAppWrite (str "B")))
       (Some [Event (EvAppWrite (str "B"))]);
     Dispatched (Event (EvAppWrite (str "B")))]
    = la ++ Accepted NewTransportData :: lb
    /\ ~ In (Accepted WaitForData) lb.
Proof.
  apply (transport_bytes_only_while_resumed unit UnitOfWork echoMachine
           burstVisitor ignoreFailure true tt 10 [AppClose] _
           [Dispatched SocketData; Accepted WaitForData; LeaveDrain]
           (Some [SocketData])).
  reflexivity.
Defined.

Lemma idle_driver_processes_at_once_witness :
  exists rest,
    log (invoke echoMachine burstVisitor ignoreFailure true 6
           NewTransportData (FizzBase_new UnitOfWork tt))
    = [] ++ [Accepted NewTransportData; EnterDrain;
             Processed SocketData (Some [SocketData])] ++ rest.
Proof.
  apply (idle_driver_processes_at_once unit UnitOfWork echoMachine
           burstVisitor ignoreFailure true (FizzBase_new UnitOfWork tt) 5
           NewTransportData SocketData);
    try reflexivity.
  left. reflexivity.
Defined.

Lemma dispatch_is_not_stopped_witness :
  let s := set_inProcessPendingEvents true (FizzBase_new UnitOfWork tt) in
  let s' :=
    dispatch_over abortingVisitor ignoreFailure (fun t => t)
      [SocketData; Event EvAppClose] s in
  inErrorState s' = true
  /\ dispatched_actions (log s') = [SocketData; Event EvAppClose].
Proof.
  split; [reflexivity|].
  apply (dispatch_is_not_stopped unit UnitOfWork abortingVisitor
           ignoreFailure (fun t => t) [SocketData; Event EvAppClose]
           (set_inProcessPendingEvents true (FizzBase_new UnitOfWork tt))).
  reflexivity.
Defined.
